(** * Deterministic image transforms of tensorpack (dataflow/imgaug/transform.py)

    A shallow embedding of the transform classes and of the part of numpy
    they rely on, followed by the properties of the transforms.

    Python values are references into a heap.  An ndarray object is a view
    (buffer, offset, shape, strides) over a shared buffer, so that in-place
    updates, views returned by slicing and object identity are all visible.
    The arithmetic on samples is a parameter ([Arith]): the development is
    instantiated with exact rationals and with IEEE binary64 floats.  The
    OpenCV kernels (cv2.resize, cv2.warpAffine, cv2.transpose) are external
    and enter as parameters ([cv2_kernels]). *)

From Stdlib Require Import ZArith QArith Qcanon Floats.
From stdpp Require Import gmap strings list.

Local Open Scope Z_scope.

(** ** Sample arithmetic *)

(** The operations the transforms apply to coordinates.  [of_int] is the
    conversion of a Python int operand, [f_one] the literal [1.0]. *)
Class Arith (F : Type) := {
  of_int : Z → F;
  f_one : F;
  f_add : F → F → F;
  f_sub : F → F → F;
  f_mul : F → F → F;
  f_div : F → F → F
}.

(** ** Exceptions *)

Inductive pyclass :=
  | ClsTransform | ClsTransformList | ClsNoOpTransform | ClsResizeTransform
  | ClsCropTransform | ClsWarpAffineTransform | ClsFlipTransform
  | ClsTransposeTransform | ClsTransformFactory.

Definition class_name (c : pyclass) : string :=
  match c with
  | ClsTransform => "Transform"
  | ClsTransformList => "TransformList"
  | ClsNoOpTransform => "NoOpTransform"
  | ClsResizeTransform => "ResizeTransform"
  | ClsCropTransform => "CropTransform"
  | ClsWarpAffineTransform => "WarpAffineTransform"
  | ClsFlipTransform => "FlipTransform"
  | ClsTransposeTransform => "TransposeTransform"
  | ClsTransformFactory => "TransformFactory"
  end.

(** [NotImplementedError] carries the argument it was raised with, if any.
    [Fault] is the access through a reference that the heap does not hold;
    it cannot happen from a well-formed heap. *)
Inductive exn :=
  | NotImplementedError (arg : option pyclass)
  | AttributeError (msg : string)
  | AssertionError
  | ZeroDivisionError
  | IndexError
  | ValueError
  | TypeError
  | Cv2Error
  | UserError (code : Z)
  | Fault.

Inductive outcome (A : Type) :=
  | Raise (e : exn)
  | Return (a : A).
Arguments Raise {A} e.
Arguments Return {A} a.

Definition succeeded {A} (o : outcome A) : bool :=
  match o with Return _ => true | Raise _ => false end.

(** The message of the AttributeError Python raises by itself. *)
Definition no_attribute (c : pyclass) (name : string) : exn :=
  AttributeError ("'" +:+ class_name c +:+ "' object has no attribute '" +:+ name +:+ "'").

(** ** Arrays *)

Definition loc := positive.

(** An ndarray object: a strided view over a buffer. *)
Record ndarray := NdArray {
  nd_buf : loc;
  nd_offset : Z;
  nd_shape : list nat;
  nd_strides : list Z
}.

Definition ndim (a : ndarray) : nat := length (nd_shape a).

(** Buffer positions of the elements of a view, in row-major order. *)
Fixpoint positions (off : Z) (shape : list nat) (strides : list Z) : list Z :=
  match shape, strides with
  | n :: sh, s :: st => i ← seq 0 n; positions (off + Z.of_nat i * s) sh st
  | _, _ => [off]
  end.

Definition view_positions (a : ndarray) : list Z :=
  positions (nd_offset a) (nd_shape a) (nd_strides a).

(** Strides of a freshly allocated (C-contiguous) array. *)
Fixpoint c_strides (shape : list nat) : list Z :=
  match shape with
  | [] => []
  | _ :: sh => Z.of_nat (foldr Nat.mul 1%nat sh) :: c_strides sh
  end.

(** Bounds of [start:stop] on an axis of length [n] (Python's
    slice.indices for step 1): a negative index counts from the end, and
    the result is clamped to [0, n]. *)
Definition clamp_index (n : nat) (i : Z) : Z :=
  let i' := if decide (i < 0) then i + Z.of_nat n else i in
  Z.max 0 (Z.min (Z.of_nat n) i').

Definition slice_start (n : nat) (start : Z) : Z := clamp_index n start.

Definition slice_length (n : nat) (start stop : Z) : nat :=
  Z.to_nat (clamp_index n stop - clamp_index n start).

(** [a[y0:y1, x0:x1]]; [None] when [a] has fewer than two axes. *)
Definition slice2 (a : ndarray) (y0 y1 x0 x1 : Z) : option ndarray :=
  match nd_shape a, nd_strides a with
  | n0 :: n1 :: sh, s0 :: s1 :: st =>
      Some (NdArray (nd_buf a)
              (nd_offset a + slice_start n0 y0 * s0 + slice_start n1 x0 * s1)
              (slice_length n0 y0 y1 :: slice_length n1 x0 x1 :: sh)
              (s0 :: s1 :: st))
  | _, _ => None
  end.

(** [a[::-1]]; [None] on a 0-d array. *)
Definition reverse_axis0 (a : ndarray) : option ndarray :=
  match nd_shape a, nd_strides a with
  | n0 :: sh, s0 :: st =>
      Some (NdArray (nd_buf a)
              (nd_offset a + Z.max 0 (Z.of_nat n0 - 1) * s0)
              (n0 :: sh) (- s0 :: st))
  | _, _ => None
  end.

(** [a[:, ::-1]]; [None] when [a] has fewer than two axes. *)
Definition reverse_axis1 (a : ndarray) : option ndarray :=
  match nd_shape a, nd_strides a with
  | n0 :: n1 :: sh, s0 :: s1 :: st =>
      Some (NdArray (nd_buf a)
              (nd_offset a + Z.max 0 (Z.of_nat n1 - 1) * s1)
              (n0 :: n1 :: sh) (s0 :: - s1 :: st))
  | _, _ => None
  end.

(** [a[:, j]]; [None] when [a] has fewer than two axes or [j] is out of
    range on axis 1. *)
Definition column (a : ndarray) (j : nat) : option ndarray :=
  match nd_shape a, nd_strides a with
  | n0 :: n1 :: sh, s0 :: s1 :: st =>
      if decide (j < n1)%nat
      then Some (NdArray (nd_buf a) (nd_offset a + Z.of_nat j * s1) (n0 :: sh) (s0 :: st))
      else None
  | _, _ => None
  end.

(** [a[:, :, np.newaxis]] of a 2-d array. *)
Definition newaxis2 (a : ndarray) : ndarray :=
  NdArray (nd_buf a) (nd_offset a) (nd_shape a ++ [1%nat]) (nd_strides a ++ [0]).

(** A tensor is the content of an array, as it is handed to and received
    from the OpenCV kernels: a shape and the samples in row-major order. *)
Record tensor (F : Type) := Tensor {
  t_shape : list nat;
  t_data : list F
}.
Arguments Tensor {F} t_shape t_data.
Arguments t_shape {F} t.
Arguments t_data {F} t.

(** The OpenCV kernels.  [None] stands for a cv2.error. *)
Record cv2_kernels (F : Type) := Cv2 {
  (* cv2.resize(img, (new_w, new_h), interpolation=interp) *)
  cv2_resize : tensor F → Z * Z → Z → option (tensor F);
  (* cv2.warpAffine(img, mat, dsize, flags, borderMode, borderValue) *)
  cv2_warpAffine :
    tensor F → list (list F) → Z * Z → Z → Z → F → option (tensor F);
  (* cv2.transpose(img) *)
  cv2_transpose : tensor F → option (tensor F)
}.
Arguments Cv2 {F} _ _ _.
Arguments cv2_resize {F} _ _ _ _.
Arguments cv2_warpAffine {F} _ _ _ _ _ _ _.
Arguments cv2_transpose {F} _ _.

(** ** The heap *)

(** Objects: arrays, and objects of any other kind, which the transforms
    can pass around but not look into. *)
Inductive pyobj :=
  | PyArray (a : ndarray)
  | PyOpaque (tag : Z).

Section transform.
Context {F : Type} `{!Arith F}.
Variable cv2 : cv2_kernels F.

Record heap := Heap {
  h_objs : gmap loc pyobj;
  h_bufs : gmap loc (list F)
}.

(** Computations: state passing over the heap, with exceptions.  The
    heap reached when an exception is raised is kept. *)
Definition M (A : Type) : Type := heap → outcome A * heap.

#[export] Instance M_ret : MRet M := λ A a hp, (Return a, hp).
#[export] Instance M_bind : MBind M := λ A B f m hp,
  match m hp with
  | (Return a, hp') => f a hp'
  | (Raise e, hp') => (Raise e, hp')
  end.

Definition raise {A} (e : exn) : M A := λ hp, (Raise e, hp).

Definition lift {A} (e : exn) (o : option A) : M A :=
  match o with Some a => mret a | None => raise e end.

(** The array a reference denotes; [e] is what the access raises on an
    object that is not an array. *)
Definition get_array (e : exn) (x : loc) : M ndarray := λ hp,
  match h_objs hp !! x with
  | Some (PyArray a) => (Return a, hp)
  | Some (PyOpaque _) => (Raise e, hp)
  | None => (Raise Fault, hp)
  end.

Definition new_object (o : pyobj) : M loc := λ hp,
  let x := fresh (dom (h_objs hp)) in
  (Return x, Heap (<[x:=o]> (h_objs hp)) (h_bufs hp)).

Definition new_buffer (d : list F) : M loc := λ hp,
  let b := fresh (dom (h_bufs hp)) in
  (Return b, Heap (h_objs hp) (<[b:=d]> (h_bufs hp))).

(** A new array owning its buffer. *)
Definition new_array (t : tensor F) : M loc :=
  b ← new_buffer (t_data t);
  new_object (PyArray (NdArray b 0 (t_shape t) (c_strides (t_shape t)))).

(** *** Reading and writing through a view *)

Definition peek (b : list F) (p : Z) : option F :=
  if decide (0 ≤ p) then b !! Z.to_nat p else None.

Definition poke (b : list F) (p : Z) (v : F) : option (list F) :=
  if decide (0 ≤ p < Z.of_nat (length b)) then Some (<[Z.to_nat p:=v]> b) else None.

Definition gather (b : list F) (ps : list Z) : option (list F) :=
  mapM (peek b) ps.

Fixpoint scatter (b : list F) (ps : list Z) (vs : list F) : option (list F) :=
  match ps, vs with
  | [], [] => Some b
  | p :: ps, v :: vs => b' ← poke b p v; scatter b' ps vs
  | _, _ => None
  end.

Definition read_view (a : ndarray) : M (list F) := λ hp,
  match h_bufs hp !! nd_buf a ≫= λ b, gather b (view_positions a) with
  | Some vs => (Return vs, hp)
  | None => (Raise Fault, hp)
  end.

Definition write_view (a : ndarray) (vs : list F) : M unit := λ hp,
  match h_bufs hp !! nd_buf a ≫= λ b, scatter b (view_positions a) vs with
  | Some b' => (Return (), Heap (h_objs hp) (<[nd_buf a:=b']> (h_bufs hp)))
  | None => (Raise Fault, hp)
  end.

Definition read_tensor (a : ndarray) : M (tensor F) :=
  vs ← read_view a; mret (Tensor (nd_shape a) vs).

(** [coords[:, j] = g(coords[:, j])], elementwise.  The right-hand side is
    evaluated first (the column, then the operand [g] stands for), and is
    then stored through the view. *)
Definition update_column (x : loc) (j : nat) (g : M (F → F)) : M unit :=
  a ← get_array TypeError x;
  col ← lift IndexError (column a j);
  vs ← read_view col;
  f ← g;
  write_view col (f <$> vs).

(** What a kernel returns becomes a new array. *)
Definition cv2_result (r : option (tensor F)) : M loc :=
  match r with Some t => new_array t | None => raise Cv2Error end.

(** [if img.ndim == 3 and ret.ndim == 2: ret = ret[:, :, np.newaxis]] *)
Definition restore_channel (img : ndarray) (ret : loc) : M loc :=
  r ← get_array TypeError ret;
  if decide (ndim img = 3%nat ∧ ndim r = 2%nat)
  then new_object (PyArray (newaxis2 r))
  else mret ret.

(** ** The transforms *)

Definition method : Type := loc → M loc.

(** A transform object, with the attributes its constructor stores.
    [Transform] is a direct instance of the base class.  The matrix of an
    affine warp is given by its rows.  The keyword arguments of a
    [TransformFactory] are a dict from names to callables. *)
#[warnings="-register-all"]
Inductive transform :=
  | Transform
  | TransformList (tfms : list transform)
  | NoOpTransform
  | ResizeTransform (h w new_h new_w : Z) (interp : Z)
  | CropTransform (y0 x0 h w : Z)
  | WarpAffineTransform (mat : list (list F)) (dsize : Z * Z)
      (interp borderMode : Z) (borderValue : F)
  | FlipTransform (h w : Z) (horiz : bool)
  | TransposeTransform
  | TransformFactory (name : option string) (kwargs : gmap string method).

Definition class_of (t : transform) : pyclass :=
  match t with
  | Transform => ClsTransform
  | TransformList _ => ClsTransformList
  | NoOpTransform => ClsNoOpTransform
  | ResizeTransform _ _ _ _ _ => ClsResizeTransform
  | CropTransform _ _ _ _ => ClsCropTransform
  | WarpAffineTransform _ _ _ _ _ => ClsWarpAffineTransform
  | FlipTransform _ _ _ => ClsFlipTransform
  | TransposeTransform => ClsTransposeTransform
  | TransformFactory _ _ => ClsTransformFactory
  end.

(** *** Transform *)

Definition Transform_apply_image (cls : pyclass) : method :=
  λ img, raise (NotImplementedError (Some cls)).

Definition Transform_apply_coords : method :=
  λ coords, raise (NotImplementedError None).

(** *** ResizeTransform *)

Definition ResizeTransform_apply_image (h w new_h new_w interp : Z) : method :=
  λ img,
    a ← get_array (AttributeError "object has no attribute 'shape'") img;
    if decide (Z.of_nat <$> take 2 (nd_shape a) = [h; w]) then
      t ← read_tensor a;
      ret ← cv2_result (cv2_resize cv2 t (new_w, new_h) interp);
      restore_channel a ret
    else raise AssertionError.

(** [new * 1.0 / old] *)
Definition scale_factor (new old : Z) : M F :=
  if decide (old = 0) then raise ZeroDivisionError
  else mret (f_div (f_mul (of_int new) f_one) (of_int old)).

Definition ResizeTransform_apply_coords (h w new_h new_w : Z) : method :=
  λ coords,
    update_column coords 0 (s ← scale_factor new_w w; mret (λ v, f_mul v s));;
    update_column coords 1 (s ← scale_factor new_h h; mret (λ v, f_mul v s));;
    mret coords.

(** *** CropTransform *)

Definition CropTransform_apply_image (y0 x0 h w : Z) : method :=
  λ img,
    a ← get_array TypeError img;
    v ← lift IndexError (slice2 a y0 (y0 + h) x0 (x0 + w));
    new_object (PyArray v).

Definition CropTransform_apply_coords (y0 x0 : Z) : method :=
  λ coords,
    update_column coords 0 (mret (λ v, f_sub v (of_int x0)));;
    update_column coords 1 (mret (λ v, f_sub v (of_int y0)));;
    mret coords.

(** *** WarpAffineTransform *)

Definition WarpAffineTransform_apply_image (mat : list (list F)) (dsize : Z * Z)
    (interp borderMode : Z) (borderValue : F) : method :=
  λ img,
    a ← get_array TypeError img;
    t ← read_tensor a;
    ret ← cv2_result (cv2_warpAffine cv2 t mat dsize interp borderMode borderValue);
    restore_channel a ret.

(** The [n] rows of [k] samples of a 2-d tensor. *)
Fixpoint rows (n k : nat) (d : list F) : list (list F) :=
  match n with
  | O => []
  | S n' => take k d :: rows n' k (drop k d)
  end.

(** Sum of the products of two vectors, in index order. *)
Definition dot (u v : list F) : F :=
  match zip_with f_mul u v with
  | [] => of_int 0
  | p :: ps => foldl f_add p ps
  end.

(** [np.dot(a, mat.T)] on the rows of [a], which have [width] samples:
    entry (i, k) is the product of row i of [a] with row k of [mat];
    [None] when the rows of [mat] have another length. *)
Definition dot_transposed (width : nat) (a mat : list (list F)) : option (list (list F)) :=
  if decide (Forall (λ m, length m = width) mat)
  then Some ((λ u, dot u <$> mat) <$> a)
  else None.

Definition WarpAffineTransform_apply_coords (mat : list (list F)) : method :=
  λ coords,
    a ← get_array (AttributeError "object has no attribute 'shape'") coords;
    match nd_shape a with
    | [] => raise IndexError
    | [n; k] =>
        vs ← read_view a;
        (* np.concatenate((coords, np.ones((n, 1))), axis=1) *)
        let aug := (λ r, r ++ [f_one]) <$> rows n k vs in
        out ← lift ValueError (dot_transposed (S k) aug mat);
        new_array (Tensor [n; length mat] (concat out))
    | _ => raise ValueError
    end.

(** *** FlipTransform *)

Definition FlipTransform_apply_image (horiz : bool) : method :=
  λ img,
    a ← get_array TypeError img;
    v ← lift IndexError (if horiz then reverse_axis1 a else reverse_axis0 a);
    new_object (PyArray v).

Definition FlipTransform_apply_coords (h w : Z) (horiz : bool) : method :=
  λ coords,
    (if horiz
     then update_column coords 0 (mret (λ v, f_sub (of_int w) v))
     else update_column coords 1 (mret (λ v, f_sub (of_int h) v)));;
    mret coords.

(** *** TransposeTransform *)

Definition TransposeTransform_apply_image : method :=
  λ img,
    a ← get_array TypeError img;
    t ← read_tensor a;
    ret ← cv2_result (cv2_transpose cv2 t);
    restore_channel a ret.

Definition TransposeTransform_apply_coords : method :=
  λ coords,
    a ← get_array TypeError coords;
    v ← lift IndexError (reverse_axis1 a);
    new_object (PyArray v).

(** *** Attribute lookup and TransformList *)

(** [f(x)] where [f] is the result of a getattr, which may have raised. *)
Definition call (f : outcome method) (x : loc) : M loc :=
  match f with Return m => m x | Raise e => raise e end.

(** The methods every class inherits from [Transform]. *)
Definition inherited (cls : pyclass) (name : string) : outcome method :=
  if decide (name = "apply_image") then Return (Transform_apply_image cls)
  else if decide (name = "apply_coords") then Return Transform_apply_coords
  else Raise (no_attribute cls name).

(** The loop of [TransformList._apply], over the way a child is invoked. *)
Fixpoint apply_loop (invoke1 : transform → method) (tfms : list transform)
    (x : loc) : M loc :=
  match tfms with
  | [] => mret x
  | t :: rest => x' ← invoke1 t x; apply_loop invoke1 rest x'
  end.

(** [getattr(t, name)], for the names that can be capabilities.  The names
    of the other attributes of the objects ([_init], [_tfms], [h], ...) are
    outside the model. *)
Fixpoint getattr (t : transform) (name : string) {struct t} : outcome method :=
  match t with
  | Transform => inherited ClsTransform name
  | TransformList tfms =>
      let _apply (x : loc) (meth : string) : M loc :=
        apply_loop (λ t, call (getattr t meth)) tfms x in
      if decide (name = "apply_image") then
        Return (λ img, _apply img "apply_image")
      else if decide (name = "apply_coords") then
        Return (λ coords, _apply coords "apply_coords")
      else if String.prefix "apply_" name then
        Return (λ x, _apply x name)
      else Raise (AttributeError ("TransformList object has no attribute " +:+ name))
  | NoOpTransform =>
      if decide (name = "apply_image") then Return (λ img, mret img)
      else if decide (name = "apply_coords") then Return (λ coords, mret coords)
      else if String.prefix "apply_" name then Return (λ x, mret x)
      else Raise (AttributeError ("TransformList object has no attribute " +:+ name))
  | ResizeTransform h w new_h new_w interp =>
      if decide (name = "apply_image") then
        Return (ResizeTransform_apply_image h w new_h new_w interp)
      else if decide (name = "apply_coords") then
        Return (ResizeTransform_apply_coords h w new_h new_w)
      else Raise (no_attribute ClsResizeTransform name)
  | CropTransform y0 x0 h w =>
      if decide (name = "apply_image") then
        Return (CropTransform_apply_image y0 x0 h w)
      else if decide (name = "apply_coords") then
        Return (CropTransform_apply_coords y0 x0)
      else Raise (no_attribute ClsCropTransform name)
  | WarpAffineTransform mat dsize interp borderMode borderValue =>
      if decide (name = "apply_image") then
        Return (WarpAffineTransform_apply_image mat dsize interp borderMode borderValue)
      else if decide (name = "apply_coords") then
        Return (WarpAffineTransform_apply_coords mat)
      else Raise (no_attribute ClsWarpAffineTransform name)
  | FlipTransform h w horiz =>
      if decide (name = "apply_image") then Return (FlipTransform_apply_image horiz)
      else if decide (name = "apply_coords") then
        Return (FlipTransform_apply_coords h w horiz)
      else Raise (no_attribute ClsFlipTransform name)
  | TransposeTransform =>
      if decide (name = "apply_image") then Return TransposeTransform_apply_image
      else if decide (name = "apply_coords") then Return TransposeTransform_apply_coords
      else Raise (no_attribute ClsTransposeTransform name)
  | TransformFactory _ kwargs =>
      (* __init__ stores the entries whose key starts with apply_ *)
      match (if String.prefix "apply_" name then kwargs !! name else None) with
      | Some f => Return f
      | None => inherited ClsTransformFactory name
      end
  end.

(** [getattr(t, meth)(x)] *)
Definition invoke (t : transform) (meth : string) (x : loc) : M loc :=
  call (getattr t meth) x.

(** [TransformList._apply] *)
Definition TransformList_apply (tfms : list transform) (x : loc) (meth : string) : M loc :=
  apply_loop (λ t, invoke t meth) tfms x.

End transform.

Arguments heap F : clear implicits.
Arguments M F A : clear implicits.
Arguments transform F : clear implicits.

(** ** Two arithmetics *)

(** Exact rational arithmetic. *)
#[export] Instance exact_arith : Arith Qc := {|
  of_int z := Q2Qc (inject_Z z);
  f_one := 1%Qc;
  f_add := Qcplus;
  f_sub := Qcminus;
  f_mul := Qcmult;
  f_div := Qcdiv
|}.

(** IEEE 754 binary64, the arithmetic of Python floats and of float64
    arrays.  An int is converted by rounding to nearest. *)
#[export] Instance binary64_arith : Arith float := {|
  of_int z := SF2Prim (binary_normalize prec emax z 0 false);
  f_one := 1%float;
  f_add := PrimFloat.add;
  f_sub := PrimFloat.sub;
  f_mul := PrimFloat.mul;
  f_div := PrimFloat.div
|}.

(** ** A stand-in for OpenCV

    Kernels with the shape behaviour of the real ones (a 2-d result for an
    image without channel axis or with a single channel, a 3-d result
    otherwise), used to run the transforms on concrete inputs.  Resizing
    samples the nearest source pixel; the warp stands for a matrix that
    maps the whole target outside of the source, and fills it with the
    border value. *)
Section kernels.
Context {F : Type}.

Definition channels (sh : list nat) : option (nat * nat * nat) :=
  match sh with
  | [h; w] => Some (h, w, 1)%nat
  | [h; w; c] => Some (h, w, c)
  | _ => None
  end.

Definition kernel_shape (oh ow c : nat) : list nat :=
  if decide (c = 1%nat) then [oh; ow] else [oh; ow; c].

Definition sample (t : tensor F) (ixs : list nat) (sh : list nat) : option (tensor F) :=
  d ← mapM (λ k, t_data t !! k) ixs; Some (Tensor sh d).

Definition nearest_resize (t : tensor F) (size : Z * Z) (interp : Z) : option (tensor F) :=
  '(h, w, c) ← channels (t_shape t);
  let ow := Z.to_nat size.1 in
  let oh := Z.to_nat size.2 in
  if decide (0 < size.1 ∧ 0 < size.2) then
    sample t
      (i ← seq 0 oh; j ← seq 0 ow; k ← seq 0 c;
       [(Nat.div (i * h) oh * w + Nat.div (j * w) ow) * c + k]%nat)
      (kernel_shape oh ow c)
  else None.

Definition border_warp (t : tensor F) (mat : list (list F)) (dsize : Z * Z)
    (interp borderMode : Z) (borderValue : F) : option (tensor F) :=
  '(h, w, c) ← channels (t_shape t);
  let ow := Z.to_nat dsize.1 in
  let oh := Z.to_nat dsize.2 in
  if decide (0 < dsize.1 ∧ 0 < dsize.2) then
    Some (Tensor (kernel_shape oh ow c) (replicate (oh * ow * c) borderValue))
  else None.

Definition plane_transpose (t : tensor F) : option (tensor F) :=
  '(h, w, c) ← channels (t_shape t);
  sample t
    (j ← seq 0 w; i ← seq 0 h; k ← seq 0 c; [(i * w + j) * c + k]%nat)
    (kernel_shape w h c).

Definition reference_kernels : cv2_kernels F :=
  Cv2 nearest_resize border_warp plane_transpose.

End kernels.

(** ** Notions used in the statements *)

Section statements.
Context {F : Type} `{!Arith F}.
Variable cv2 : cv2_kernels F.

(** The children applied by hand, one after the other: the first child to
    the value, each further child to the result of the one before it. *)
Definition apply_in_order (tfms : list (transform F)) (meth : string) (x : loc) : M F loc :=
  foldl (λ acc c, acc ≫= invoke cv2 c meth) (mret x) tfms.

(** [x] refers to the array [a], which has a stride for each axis. *)
Definition array_at (hp : heap F) (x : loc) (a : ndarray) : Prop :=
  h_objs hp !! x = Some (PyArray a) ∧ length (nd_strides a) = length (nd_shape a).

(** The region [y0 : y0+h, x0 : x0+w] lies within an image of this shape. *)
Definition region_within (y0 x0 h w : Z) (shape : list nat) : Prop :=
  match shape with
  | n0 :: n1 :: _ =>
      0 ≤ y0 ∧ 0 ≤ h ∧ y0 + h ≤ Z.of_nat n0 ∧ 0 ≤ x0 ∧ 0 ≤ w ∧ x0 + w ≤ Z.of_nat n1
  | _ => False
  end.

(** What it would mean for a crop to report a region that leaves the
    image: the call does not return. *)
Definition crop_reports_out_of_bounds (y0 x0 h w : Z) (img : loc) (hp : heap F) : Prop :=
  ∀ a, array_at hp img a → ¬ region_within y0 x0 h w (nd_shape a) →
    succeeded (invoke cv2 (CropTransform y0 x0 h w) "apply_image" img hp).1 = false.

(** The kernel a transform hands the image to, with the arguments the
    transform passes. *)
Definition kernel_of (t : transform F) : option (tensor F → option (tensor F)) :=
  match t with
  | ResizeTransform h w new_h new_w interp =>
      Some (λ img, cv2_resize cv2 img (new_w, new_h) interp)
  | WarpAffineTransform mat dsize interp borderMode borderValue =>
      Some (λ img, cv2_warpAffine cv2 img mat dsize interp borderMode borderValue)
  | TransposeTransform => Some (cv2_transpose cv2)
  | _ => None
  end.

(** The precondition of apply_image on the shape of the image. *)
Definition accepts (t : transform F) (a : ndarray) : Prop :=
  match t with
  | ResizeTransform h w _ _ _ => Z.of_nat <$> take 2 (nd_shape a) = [h; w]
  | _ => True
  end.

(** OpenCV returns a 2-d array, or a 3-d one for an image with several
    channels. *)
Definition channel_rule (img ret : tensor F) : Prop :=
  length (t_shape ret) = 2%nat ∨
  (length (t_shape ret) = 3%nat ∧ length (t_shape img) = 3%nat).

(** Buffer position of element (i, j) of a 2-d array. *)
Definition element2 (a : ndarray) (s0 s1 : Z) (i j : nat) : Z :=
  nd_offset a + Z.of_nat i * s0 + Z.of_nat j * s1.

(** The points of a coordinate set, an array of shape (n, 2): point i is
    (coords[i, 0], coords[i, 1]). *)
Definition read_coords (x : loc) (hp : heap F) : option (list (F * F)) :=
  match h_objs hp !! x with
  | Some (PyArray a) =>
      match nd_shape a, nd_strides a with
      | [n; 2%nat], [s0; s1] =>
          b ← h_bufs hp !! nd_buf a;
          mapM (λ i, px ← peek b (element2 a s0 s1 i 0);
                     py ← peek b (element2 a s0 s1 i 1);
                     Some (px, py)) (seq 0 n)
      | _, _ => None
      end
  | _ => None
  end.

(** [x] is a coordinate set with the points [pts], whose elements lie in
    distinct cells of its buffer. *)
Definition coords_at (hp : heap F) (x : loc) (pts : list (F * F)) : Prop :=
  read_coords x hp = Some pts ∧
  ∃ a, h_objs hp !! x = Some (PyArray a) ∧ NoDup (view_positions a).

(** The row of the array that holds a point. *)
Definition pair_row (pt : F * F) : list F := [pt.1; pt.2].

Definition is_composite (t : transform F) : bool :=
  match t with TransformList _ => true | _ => false end.

(** Whether a transform implements a capability: the base class implements
    none, the identity every apply_* name, the geometric transforms
    apply_image and apply_coords, a TransformFactory the apply_* names it
    was constructed with, and a composite the apply_* names that all of its
    children implement. *)
Fixpoint supports (t : transform F) (meth : string) : bool :=
  match t with
  | Transform => false
  | TransformList tfms =>
      String.prefix "apply_" meth && forallb (λ c, supports c meth) tfms
  | NoOpTransform => String.prefix "apply_" meth
  | TransformFactory _ kwargs =>
      String.prefix "apply_" meth && bool_decide (is_Some (kwargs !! meth))
  | _ => bool_decide (meth = "apply_image" ∨ meth = "apply_coords")
  end.

(** The signal of a capability that a transform does not implement. *)
Definition not_supported (c : transform F) (meth : string) : exn :=
  if decide (meth = "apply_image") then NotImplementedError (Some (class_of c))
  else if decide (meth = "apply_coords") then NotImplementedError None
  else no_attribute (class_of c) meth.

(** What a check of the capability on all children, made before any of
    them is applied, would give: when a child lacks the capability the call
    fails with the signal of such a child, in the heap of the call. *)
Definition checks_capability_first (tfms : list (transform F)) (meth : string)
    (x : loc) (hp : heap F) : Prop :=
  ∀ c, c ∈ tfms → supports c meth = false →
    ∃ c', c' ∈ tfms ∧ supports c' meth = false ∧
      invoke cv2 (TransformList tfms) meth x hp = (Raise (not_supported c' meth), hp).

End statements.

(** ** Concrete inputs *)

(** A heap with one coordinate set, the points (50, 50) and (0, 0), in an
    array that owns its buffer. *)
Definition two_points `{!Arith F} : heap F :=
  Heap {[1%positive := PyArray (NdArray 1%positive 0 [2%nat; 2%nat] [2; 1])]}
       {[1%positive := of_int <$> [50; 50; 0; 0]]}.

(** A heap with one image of 2 x 2 pixels and one channel. *)
Definition small_image `{!Arith F} : heap F :=
  Heap {[1%positive := PyArray (NdArray 1%positive 0 [2%nat; 2%nat; 1%nat] [2; 1; 1])]}
       {[1%positive := of_int <$> [1; 2; 3; 4]]}.

(** A heap with the coordinate set of a single point. *)
Definition one_point `{!Arith F} (px py : Z) : heap F :=
  Heap {[1%positive := PyArray (NdArray 1%positive 0 [1%nat; 2%nat] [2; 1])]}
       {[1%positive := of_int <$> [px; py]]}.

(** A transform made with TransformFactory from a function on images
    only, as a change of lighting would be. *)
Definition image_only `{!Arith F} : transform F :=
  TransformFactory (Some "lighting") {["apply_image" := λ img, mret img]}.

(** ** Notions used in the further properties *)

Section further_statements.
Context {F : Type} `{!Arith F}.

(** A function applied to one component of a point: the first for column
    0, the second for column 1. *)
Definition on_column (j : nat) (f : F → F) (pt : F * F) : F * F :=
  match j with
  | O => (f pt.1, pt.2)
  | _ => (pt.1, f pt.2)
  end.

(** [hp1] differs from [hp] at most in the cells of the view [a]: the
    objects are the same, every other buffer is the same, and the buffer of
    [a] has kept its length and its cells outside of [a]. *)
Definition differs_within (a : ndarray) (hp hp1 : heap F) : Prop :=
  h_objs hp1 = h_objs hp ∧
  (∀ bid, bid ≠ nd_buf a → h_bufs hp1 !! bid = h_bufs hp !! bid) ∧
  (∀ b, h_bufs hp !! nd_buf a = Some b →
     ∃ b1, h_bufs hp1 !! nd_buf a = Some b1 ∧ length b1 = length b ∧
           ∀ q, q ∉ view_positions a → peek b1 q = peek b q).

(** [hp1] extends [hp]: it holds every object and every buffer of [hp],
    unchanged. *)
Definition extends (hp hp1 : heap F) : Prop :=
  h_objs hp ⊆ h_objs hp1 ∧ h_bufs hp ⊆ h_bufs hp1.

(** The transforms whose apply_coords stores into the array it is given,
    with what they need not to raise: a Resize transform divides by its
    declared height and width. *)
Definition updates_in_place (t : transform F) : Prop :=
  match t with
  | ResizeTransform h w _ _ _ => h ≠ 0 ∧ w ≠ 0
  | CropTransform _ _ _ _ => True
  | FlipTransform _ _ _ => True
  | _ => False
  end.

(** The 2 x 3 matrix of the map that apply_coords of a transform applies
    to points. *)
Definition matrix_of (t : transform F) : option (list (list F)) :=
  let zero := of_int 0 in
  let one := of_int 1 in
  match t with
  | ResizeTransform h w new_h new_w _ =>
      Some [[f_div (f_mul (of_int new_w) f_one) (of_int w); zero; zero];
            [zero; f_div (f_mul (of_int new_h) f_one) (of_int h); zero]]
  | CropTransform y0 x0 _ _ =>
      Some [[one; zero; of_int (- x0)]; [zero; one; of_int (- y0)]]
  | FlipTransform h w horiz =>
      Some (if horiz then [[of_int (-1); zero; of_int w]; [zero; one; zero]]
            else [[one; zero; zero]; [zero; of_int (-1); of_int h]])
  | TransposeTransform => Some [[zero; one; zero]; [one; zero; zero]]
  | _ => None
  end.

(** The matrix of the map of [m] followed by the map of [n]. *)
Definition affine_product (n m : list (list F)) : list (list F) :=
  match n, m with
  | [[n00; n01; n02]; [n10; n11; n12]], [[m00; m01; m02]; [m10; m11; m12]] =>
      [[f_add (f_mul n00 m00) (f_mul n01 m10);
        f_add (f_mul n00 m01) (f_mul n01 m11);
        f_add (f_add (f_mul n00 m02) (f_mul n01 m12)) n02];
       [f_add (f_mul n10 m00) (f_mul n11 m10);
        f_add (f_mul n10 m01) (f_mul n11 m11);
        f_add (f_add (f_mul n10 m02) (f_mul n11 m12)) n12]]
  | _, _ => []
  end.

(** The sizes a Resize transform divides by are not 0. *)
Definition sizes_nonzero (t : transform F) : Prop :=
  match t with
  | ResizeTransform h w _ _ _ => h ≠ 0 ∧ w ≠ 0
  | _ => True
  end.

(** Buffer position at which the block at index (i, j) of the first two
    axes of a view begins: the pixel (i, j) of an image. *)
Definition block_offset (a : ndarray) (i j : nat) : option Z :=
  match nd_strides a with
  | s0 :: s1 :: _ => Some (nd_offset a + Z.of_nat i * s0 + Z.of_nat j * s1)
  | _ => None
  end.

(** The calls that store nothing in what the heap holds: apply_image of
    the geometric transforms, apply_coords of an affine warp and of a
    transposition, every call on the identity and on the base class, and
    the calls on a composite whose children are all of this kind.  The
    callables of a TransformFactory are arbitrary. *)
Fixpoint allocates_only (t : transform F) (meth : string) : bool :=
  match t with
  | TransformList tfms => forallb (λ c, allocates_only c meth) tfms
  | TransformFactory _ _ => false
  | ResizeTransform _ _ _ _ _ | CropTransform _ _ _ _ | FlipTransform _ _ _ =>
      bool_decide (meth ≠ "apply_coords")
  | _ => true
  end.

(** A computation that leaves every object and every buffer of the heap
    as it is, whether it returns or raises. *)
Definition preserves_heap {A} (m : M F A) : Prop :=
  ∀ hp o hp1, m hp = (o, hp1) → extends hp hp1.

End further_statements.

(** ** Construction and printing *)

Section construction.
Context {V : Type}.

(** The names [Transform._init] keeps: all but [self] and the ones that
    start with an underscore. *)
Definition kept_by_init (k : string) : bool :=
  bool_decide (k ≠ "self") && negb (String.prefix "_" k).

(** [Transform._init(self, params)].  [attrs] is the dict of the attributes
    of [self]; [params] is a dict, or [None], the default.  A dict that is
    empty is false. *)
Definition Transform_init (attrs : gmap string V) (params : option (gmap string V)) :
    gmap string V :=
  match params with
  | None => attrs
  | Some p =>
      if decide (size p = 0%nat) then attrs
      else map_fold (λ k v self, if kept_by_init k then <[k:=v]> self else self) attrs p
  end.

End construction.

Section construction_of_transforms.
Context {F : Type} `{!Arith F}.

(** A value given to a constructor: a transform, or an object of another
    kind. *)
Inductive pyvalue :=
  | VTransform (t : transform F)
  | VOther (o : pyobj).

(** [isinstance(v, Transform)] *)
Definition is_transform (v : pyvalue) : bool :=
  match v with VTransform _ => true | VOther _ => false end.

Definition as_transform (v : pyvalue) : option (transform F) :=
  match v with VTransform t => Some t | VOther _ => None end.

(** The loop of assertions of [TransformList.__init__]. *)
Fixpoint assert_transforms (tfms : list pyvalue) : outcome unit :=
  match tfms with
  | [] => Return ()
  | t :: rest =>
      if is_transform t then assert_transforms rest else Raise AssertionError
  end.

(** [TransformList(tfms)], for a list [tfms]: the object whose [_tfms] is
    the list, once every element has passed the assertion. *)
Definition TransformList_init (tfms : list pyvalue) : outcome (transform F) :=
  match assert_transforms tfms with
  | Return _ => Return (TransformList (omap as_transform tfms))
  | Raise e => Raise e
  end.

(** [TransformFactory.__str__]: a name that is [None] or empty is false. *)
Definition TransformFactory_str (name : option string) : string :=
  match name with
  | Some n =>
      if decide (n = "") then "TransformFactory()"
      else "TransformFactory(" +:+ n +:+ ")"
  | None => "TransformFactory()"
  end.

(** [str(t)] for a transform made by TransformFactory. *)
Definition str_of (t : transform F) : option string :=
  match t with
  | TransformFactory name _ => Some (TransformFactory_str name)
  | _ => None
  end.

End construction_of_transforms.

(** * Properties *)

(** ** Computations *)

Section computations.
Context {F : Type}.

Local Abbreviation M := (M F).
Local Abbreviation heap := (heap F).

Lemma bind_ret_l {A B} (a : A) (f : A → M B) hp : (mret a ≫= f) hp = f a hp.
Proof. reflexivity. Qed.

Lemma bind_assoc {A B C} (m : M A) (f : A → M B) (g : B → M C) hp :
  ((m ≫= f) ≫= g) hp = (m ≫= λ a, f a ≫= g) hp.
Proof.
  unfold mbind, M_bind. destruct (m hp) as [[e|a] hp1]; reflexivity.
Qed.

Lemma bind_ext {A B} (m m' : M A) (f f' : A → M B) hp :
  (∀ hp1, m hp1 = m' hp1) → (∀ a hp1, f a hp1 = f' a hp1) →
  (m ≫= f) hp = (m' ≫= f') hp.
Proof.
  intros Hm Hf. unfold mbind, M_bind. rewrite Hm.
  destruct (m' hp) as [[e|a] hp1]; [reflexivity | apply Hf].
Qed.

Lemma bind_raise {A B} (m : M A) (f : A → M B) e hp hp1 :
  m hp = (Raise e, hp1) → (m ≫= f) hp = (Raise e, hp1).
Proof. intros Hm. unfold mbind, M_bind. by rewrite Hm. Qed.

Lemma bind_return {A B} (m : M A) (f : A → M B) a hp hp1 :
  m hp = (Return a, hp1) → (m ≫= f) hp = f a hp1.
Proof. intros Hm. unfold mbind, M_bind. by rewrite Hm. Qed.

Lemma get_array_eq e x a (hp : heap) :
  h_objs hp !! x = Some (PyArray a) → get_array e x hp = (Return a, hp).
Proof. intros Hx. unfold get_array. by rewrite Hx. Qed.

Lemma read_tensor_eq a vs (hp : heap) :
  read_view a hp = (Return vs, hp) →
  read_tensor a hp = (Return (Tensor (nd_shape a) vs), hp).
Proof. intros Hr. unfold read_tensor. by rewrite (bind_return _ _ _ _ _ Hr). Qed.

Lemma read_view_heap a (hp hp1 : heap) o : read_view a hp = (o, hp1) → hp1 = hp.
Proof.
  unfold read_view. destruct (_ ≫= _); intros [= _ <-]; reflexivity.
Qed.

(** Allocation of the result of a kernel. *)
Lemma new_array_eq (t : tensor F) (hp : heap) :
  new_array t hp =
    (Return (fresh (dom (h_objs hp))),
     Heap (<[fresh (dom (h_objs hp)):=
               PyArray (NdArray (fresh (dom (h_bufs hp))) 0 (t_shape t)
                          (c_strides (t_shape t)))]> (h_objs hp))
          (<[fresh (dom (h_bufs hp)):=t_data t]> (h_bufs hp))).
Proof. reflexivity. Qed.

End computations.

(** One step of a computation whose outcome is known. *)
Ltac run_with H := rewrite (bind_return _ _ _ _ _ H).

(** The access to an array that the heap holds. *)
Ltac run_array H := rewrite (bind_return _ _ _ _ _ (get_array_eq _ _ _ _ H)).

(** ** Composition *)

Section composition.
Context {F : Type} `{!Arith F}.
Variable cv2 : cv2_kernels F.

Local Abbreviation M := (M F).
Local Abbreviation heap := (heap F).
Local Abbreviation transform := (transform F).

(** The loop, started after a computation [m], is the left fold of the
    binds over the children. *)
Lemma apply_loop_foldl (inv : transform → method) tfms (m : M loc) hp :
  (m ≫= apply_loop inv tfms) hp = foldl (λ acc c, acc ≫= inv c) m tfms hp.
Proof.
  revert m hp. induction tfms as [|c tfms IH]; intros m hp; simpl.
  - unfold mbind, M_bind. destruct (m hp) as [[e|a] hp1]; reflexivity.
  - rewrite <- IH. symmetry. apply bind_assoc.
Qed.

Lemma apply_loop_in_order tfms meth x hp :
  apply_loop (λ t, call (getattr cv2 t meth)) tfms x hp = apply_in_order cv2 tfms meth x hp.
Proof.
  unfold apply_in_order. rewrite <- (apply_loop_foldl (λ t, invoke cv2 t meth)).
  reflexivity.
Qed.

Lemma apply_loop_app (inv : transform → method) l1 l2 x hp :
  apply_loop inv (l1 ++ l2) x hp = (apply_loop inv l1 x ≫= apply_loop inv l2) hp.
Proof.
  revert x hp. induction l1 as [|c l1 IH]; intros x hp; simpl; [reflexivity|].
  rewrite bind_assoc. apply bind_ext; [reflexivity | intros; apply IH].
Qed.

Lemma TransformList_apply_unfold tfms meth x hp :
  String.prefix "apply_" meth = true →
  invoke cv2 (TransformList tfms) meth x hp = TransformList_apply cv2 tfms x meth hp.
Proof.
  intros Hp. unfold invoke at 1, TransformList_apply. simpl.
  repeat case_decide; subst; simpl; try reflexivity.
  rewrite Hp. reflexivity.
Qed.

(** C1: for a composite built from the children C1..Cn and a capability
    name, applying the composite to a value is applying C1's capability to
    the value, then C2's to the result, and so on through Cn, in the order
    in which the children were supplied. *)
Theorem composite_applies_children_in_order (tfms : list transform) (meth : string)
    (x : loc) (hp : heap) :
  String.prefix "apply_" meth = true →
  invoke cv2 (TransformList tfms) meth x hp = apply_in_order cv2 tfms meth x hp.
Proof.
  intros Hp. rewrite TransformList_apply_unfold by done.
  apply apply_loop_in_order.
Qed.

(** C10: a composite without children is an identity: each of its
    capabilities returns its argument itself and leaves the heap as it
    is. *)
Theorem empty_composite_is_identity (meth : string) (x : loc) (hp : heap) :
  String.prefix "apply_" meth = true →
  invoke cv2 (TransformList []) meth x hp = (Return x, hp).
Proof.
  intros Hp. rewrite TransformList_apply_unfold by done. reflexivity.
Qed.

(** C3: the identity transform returns the image it is given, and the
    coordinate set it is given: the same object, with the heap untouched;
    and it supports every other apply_* name in the same way. *)
Theorem noop_returns_its_argument (x : loc) (hp : heap) :
  invoke cv2 NoOpTransform "apply_image" x hp = (Return x, hp) ∧
  invoke cv2 NoOpTransform "apply_coords" x hp = (Return x, hp) ∧
  ∀ meth, String.prefix "apply_" meth = true →
    invoke cv2 NoOpTransform meth x hp = (Return x, hp).
Proof.
  split; [reflexivity|]. split; [reflexivity|].
  intros meth Hp. unfold invoke. simpl.
  repeat case_decide; simpl; try reflexivity.
  rewrite Hp. reflexivity.
Qed.

End composition.

(** ** Capabilities that a child lacks *)

Section capabilities.
Context {F : Type} `{!Arith F}.
Variable cv2 : cv2_kernels F.

Local Abbreviation heap := (heap F).
Local Abbreviation transform := (transform F).

Lemma inherited_not_supported (c : transform) (meth : string) (x : loc) (hp : heap) :
  call (inherited (class_of c) meth) x hp = (Raise (not_supported c meth), hp).
Proof.
  unfold inherited, not_supported. repeat case_decide; reflexivity.
Qed.

(** A transform that is not a composite raises its signal at once. *)
Lemma unsupported_child_raises (c : transform) (meth : string) (x : loc) (hp : heap) :
  String.prefix "apply_" meth = true →
  is_composite c = false → supports c meth = false →
  invoke cv2 c meth x hp = (Raise (not_supported c meth), hp).
Proof.
  intros Hp Hc Hs. unfold invoke.
  destruct c; simpl in *; try congruence;
    try (apply bool_decide_eq_false in Hs;
         unfold not_supported; simpl;
         repeat case_decide; subst; try reflexivity; exfalso; by auto).
  - apply (inherited_not_supported Transform).
  - rewrite Hp in *. simpl in Hs. apply bool_decide_eq_false in Hs.
    destruct (kwargs !! meth) as [f|] eqn:Hk; [exfalso; eauto|].
    apply (inherited_not_supported (TransformFactory name kwargs)).
Qed.

(** C2, as the code has it: the composite makes no check beforehand.  When
    a child that is not itself a composite lacks the capability and the
    children before it have returned, the call fails with the signal of
    that child, which is raised when the loop reaches it: the children
    before it have been applied, and the heap is the one they left. *)
Theorem composite_fails_at_unsupported_child (pre post : list transform)
    (c : transform) (meth : string) (x x1 : loc) (hp hp1 : heap) :
  String.prefix "apply_" meth = true →
  is_composite c = false → supports c meth = false →
  apply_in_order cv2 pre meth x hp = (Return x1, hp1) →
  invoke cv2 (TransformList (pre ++ c :: post)) meth x hp =
    (Raise (not_supported c meth), hp1).
Proof.
  intros Hp Hc Hs Hpre.
  rewrite TransformList_apply_unfold by done. unfold TransformList_apply.
  rewrite apply_loop_app.
  erewrite bind_return by (rewrite <- Hpre; apply apply_loop_in_order).
  simpl. apply bind_raise. by apply unsupported_child_raises.
Qed.

End capabilities.

(** ** Images *)

Section images.
Context {F : Type} `{!Arith F}.
Variable cv2 : cv2_kernels F.

Local Abbreviation M := (M F).
Local Abbreviation heap := (heap F).
Local Abbreviation transform := (transform F).

(** The outcome of the channel restoration on a fresh kernel result. *)
Lemma restore_channel_eq (img : ndarray) (t : tensor F) (hp : heap) :
  ∃ ret r hp1,
    (cv2_result (Some t) ≫= λ ret0, restore_channel img ret0) hp = (Return ret, hp1) ∧
    h_objs hp1 !! ret = Some (PyArray r) ∧
    h_bufs hp1 !! nd_buf r = Some (t_data t) ∧
    nd_shape r =
      (if decide (ndim img = 3%nat ∧ length (t_shape t) = 2%nat)
       then t_shape t ++ [1%nat] else t_shape t).
Proof.
  simpl. run_with (new_array_eq t hp).
  unfold restore_channel.
  erewrite bind_return by (apply get_array_eq; simpl; apply lookup_insert_eq).
  unfold ndim at 2. simpl. case_decide.
  - eexists _, _, _. split; [reflexivity|]. simpl.
    rewrite lookup_insert_eq. split; [reflexivity|]. simpl.
    rewrite lookup_insert_eq. by rewrite decide_True.
  - eexists _, _, _. split; [reflexivity|]. simpl.
    rewrite lookup_insert_eq. split; [reflexivity|]. simpl.
    rewrite lookup_insert_eq. by rewrite decide_False.
Qed.

(** C5: apply_image of a Resize transform declared with (h, w) fails on
    its assertion, at once and with the heap untouched, exactly when the
    first two dimensions of the image differ from (h, w); when they are
    (h, w) the assertion does not fail. *)
Theorem resize_asserts_declared_shape (h w new_h new_w interp : Z) (img : loc)
    (a : ndarray) (hp : heap) :
  h_objs hp !! img = Some (PyArray a) →
  let run := invoke cv2 (ResizeTransform h w new_h new_w interp) "apply_image" img hp in
  (run = (Raise AssertionError, hp) ↔ Z.of_nat <$> take 2 (nd_shape a) ≠ [h; w]) ∧
  (Z.of_nat <$> take 2 (nd_shape a) = [h; w] → run.1 ≠ Raise AssertionError).
Proof.
  intros Ha run.
  assert (Hok : Z.of_nat <$> take 2 (nd_shape a) = [h; w] → run.1 ≠ Raise AssertionError).
  { intros Hs. subst run. unfold invoke. simpl. unfold ResizeTransform_apply_image.
    run_array Ha.
    rewrite decide_True by done.
    destruct (read_view a hp) as [[e|vs] hp1] eqn:Hr.
    - unfold read_tensor. rewrite (bind_raise _ _ _ _ _ (bind_raise _ _ _ _ _ Hr)).
      simpl. unfold read_view in Hr. destruct (_ ≫= _); by inversion Hr.
    - pose proof (read_view_heap _ _ _ _ Hr) as ->.
      run_with (read_tensor_eq _ _ _ Hr).
      destruct (cv2_resize cv2 _ _ _) as [t|].
      + destruct (restore_channel_eq a t hp) as (ret & r & hp1 & -> & _). done.
      + done. }
  split; [|exact Hok]. split.
  - intros Hrun Hs. apply (Hok Hs). by rewrite Hrun.
  - intros Hs. subst run. unfold invoke. simpl. unfold ResizeTransform_apply_image.
    run_array Ha.
    by rewrite decide_False.
Qed.

(** C9: apply_image of Resize, Affine Warp and Transpose keeps the
    channel axis of the image.  On an image the transform accepts and on
    which the kernel returns [kt], the call returns a new array holding the
    samples of [kt], of the shape of [kt] with a singleton channel axis
    appended when the image has three axes and [kt] two.  With kernels that
    follow OpenCV's rule on channels, an image with three axes yields an
    array with three axes and an image with two axes one with two. *)
Theorem geometric_apply_image_keeps_channel_axis (t : transform)
    (k : tensor F → option (tensor F)) (img : loc) (a : ndarray) (hp : heap)
    (vs : list F) (kt : tensor F) :
  kernel_of cv2 t = Some k →
  h_objs hp !! img = Some (PyArray a) →
  accepts t a →
  read_view a hp = (Return vs, hp) →
  k (Tensor (nd_shape a) vs) = Some kt →
  ∃ ret r hp1,
    invoke cv2 t "apply_image" img hp = (Return ret, hp1) ∧
    h_objs hp1 !! ret = Some (PyArray r) ∧
    h_bufs hp1 !! nd_buf r = Some (t_data kt) ∧
    nd_shape r =
      (if decide (ndim a = 3%nat ∧ length (t_shape kt) = 2%nat)
       then t_shape kt ++ [1%nat] else t_shape kt) ∧
    (channel_rule (Tensor (nd_shape a) vs) kt →
       (ndim a = 3%nat → ndim r = 3%nat) ∧ (ndim a = 2%nat → ndim r = 2%nat)).
Proof.
  intros Hk Ha Hacc Hr Hkt.
  destruct (restore_channel_eq a kt hp) as (ret & r & hp1 & Hrun & Hret & Hbuf & Hsh).
  exists ret, r, hp1.
  assert (Hrule : channel_rule (Tensor (nd_shape a) vs) kt →
    (ndim a = 3%nat → ndim r = 3%nat) ∧ (ndim a = 2%nat → ndim r = 2%nat)).
  { unfold channel_rule, ndim in *. simpl. rewrite Hsh.
    intros [H2|[H3 H3']]; split; intros Hn; case_decide as Hd;
      rewrite ?length_app; simpl; lia. }
  destruct t; simplify_eq/=; unfold invoke; simpl.
  - unfold ResizeTransform_apply_image.
    run_array Ha.
    rewrite decide_True by done.
    run_with (read_tensor_eq _ _ _ Hr).
    rewrite Hkt. auto.
  - unfold WarpAffineTransform_apply_image.
    run_array Ha.
    run_with (read_tensor_eq _ _ _ Hr).
    rewrite Hkt. auto.
  - unfold TransposeTransform_apply_image.
    run_array Ha.
    run_with (read_tensor_eq _ _ _ Hr).
    rewrite Hkt. auto.
Qed.

(** C6, as the code has it: on an image with at least two axes apply_image
    of a Crop transform raises nothing, whatever the region.  It returns a
    new view on the rows and columns of the region that the image has
    (Python's clamping of slice bounds), over the buffer of the image, and
    changes nothing else; for offsets and sizes that are not negative this
    is the region cut off at the border of the image, and the whole region
    when it lies within the image. *)
Theorem crop_truncates_region (y0 x0 h w : Z) (img : loc) (a : ndarray) (hp : heap)
    (n0 n1 : nat) (sh : list nat) :
  array_at hp img a →
  nd_shape a = n0 :: n1 :: sh →
  ∃ ret v,
    invoke cv2 (CropTransform y0 x0 h w) "apply_image" img hp =
      (Return ret, Heap (<[ret:=PyArray v]> (h_objs hp)) (h_bufs hp)) ∧
    h_objs hp !! ret = None ∧
    slice2 a y0 (y0 + h) x0 (x0 + w) = Some v ∧
    nd_buf v = nd_buf a ∧
    nd_strides v = nd_strides a ∧
    nd_shape v = slice_length n0 y0 (y0 + h) :: slice_length n1 x0 (x0 + w) :: sh ∧
    (0 ≤ y0 → 0 ≤ h → 0 ≤ x0 → 0 ≤ w →
       nd_shape v =
         Z.to_nat (Z.min h (Z.of_nat n0 - y0)) ::
         Z.to_nat (Z.min w (Z.of_nat n1 - x0)) :: sh) ∧
    (region_within y0 x0 h w (nd_shape a) →
       nd_shape v = Z.to_nat h :: Z.to_nat w :: sh).
Proof.
  intros [Ha Hst] Hsh.
  destruct a as [buf off shape strides]. simpl in *. subst shape.
  destruct strides as [|s0 [|s1 st]]; simplify_eq/=.
  eexists _, _. split.
  { unfold invoke. simpl. unfold CropTransform_apply_image.
    run_array Ha.
    unfold slice2. simpl. reflexivity. }
  split.
  { apply not_elem_of_dom. apply is_fresh. }
  simpl. split; [done|]. split; [done|]. split; [done|]. split; [done|].
  unfold slice_length, clamp_index. split.
  - intros. repeat case_decide;
      (apply (f_equal2 cons); [lia | apply (f_equal2 cons); [lia | reflexivity]]).
  - intros (? & ? & ? & ? & ? & ?). repeat case_decide;
      (apply (f_equal2 cons); [lia | apply (f_equal2 cons); [lia | reflexivity]]).
Qed.

End images.

(** ** Updates in place *)

Section buffers.
Context {F : Type}.
Implicit Types (b : list F) (p q : Z) (ps : list Z).

Lemma peek_insert b p q v :
  0 ≤ p < Z.of_nat (length b) →
  peek (<[Z.to_nat p:=v]> b) q = if decide (q = p) then Some v else peek b q.
Proof.
  intros Hp. unfold peek. case_decide as Hq; case_decide as Hqp; subst; try lia.
  - apply list_lookup_insert_eq. lia.
  - apply list_lookup_insert_ne. lia.
  - reflexivity.
Qed.

Lemma peek_is_Some b p : is_Some (peek b p) ↔ 0 ≤ p < Z.of_nat (length b).
Proof.
  unfold peek. case_decide.
  - rewrite lookup_lt_is_Some. lia.
  - split; [intros [? [=]] | lia].
Qed.

(** Reading [ps] and storing [g] of what was read: every cell of [ps] is
    mapped by [g], every other cell is kept. *)
Lemma in_place_spec (g : F → F) b0 ps : ∀ b,
  NoDup ps →
  Forall (λ p, 0 ≤ p < Z.of_nat (length b)) ps →
  (∀ p, p ∈ ps → peek b p = peek b0 p) →
  ∃ vs b',
    gather b0 ps = Some vs ∧
    scatter b ps (g <$> vs) = Some b' ∧
    length b' = length b ∧
    ∀ q, peek b' q = if decide (q ∈ ps) then g <$> peek b0 q else peek b q.
Proof.
  induction ps as [|p ps IH]; intros b Hnd Hin Hagree.
  - exists [], b. split_and!; reflexivity.
  - apply NoDup_cons in Hnd as [Hp Hnd]. apply Forall_cons in Hin as [Hpb Hin].
    destruct (proj2 (peek_is_Some b p) Hpb) as [v Hv].
    assert (Hv0 : peek b0 p = Some v) by (rewrite <- Hagree; [done | left]).
    destruct (IH (<[Z.to_nat p:=g v]> b)) as (vs & b' & Hg & Hs & Hlen & Hpeek).
    + done.
    + by rewrite length_insert.
    + intros q Hq. rewrite peek_insert by done.
      rewrite decide_False by (intros ->; done). apply Hagree. by right.
    + exists (v :: vs), b'. split_and!.
      * unfold gather in *. simpl. rewrite Hv0. simpl. rewrite Hg. reflexivity.
      * simpl. unfold poke. rewrite decide_True by done. simpl. exact Hs.
      * by rewrite Hlen, length_insert.
      * intros q. rewrite Hpeek. rewrite peek_insert by done.
        destruct (decide (q = p)) as [->|Hne].
        -- rewrite decide_False by done. rewrite decide_True by left.
           by rewrite Hv0.
        -- destruct (decide (q ∈ ps)) as [Hq|Hq].
           ++ rewrite decide_True by (by right). reflexivity.
           ++ rewrite decide_False; [reflexivity|].
              intros [?|?]%elem_of_cons; done.
Qed.

Lemma peek_ext b b' :
  length b' = length b → (∀ q, peek b' q = peek b q) → b' = b.
Proof.
  intros Hlen Hpeek. apply list_eq. intros i.
  specialize (Hpeek (Z.of_nat i)). unfold peek in Hpeek.
  rewrite !decide_True in Hpeek by lia. by rewrite Nat2Z.id in Hpeek.
Qed.

(** *** Columns of a view *)

Lemma bind_sublist {A B} (f g : A → list B) (l : list A) :
  (∀ x, x ∈ l → f x `sublist_of` g x) → l ≫= f `sublist_of` l ≫= g.
Proof.
  induction l as [|x l IH]; intros Hfg; csimpl; [constructor|].
  apply sublist_app; [apply Hfg; left | apply IH; intros; apply Hfg; by right].
Qed.

Lemma bind_member_sublist {A B} (f : A → list B) (l : list A) x :
  x ∈ l → f x `sublist_of` l ≫= f.
Proof.
  intros (l1 & l2 & ->)%list_elem_of_split.
  rewrite bind_app, bind_cons.
  apply sublist_inserts_l, sublist_inserts_r. reflexivity.
Qed.

Lemma column_buf a j col : column a j = Some col → nd_buf col = nd_buf a.
Proof.
  unfold column. destruct (nd_shape a) as [|? [|? ?]], (nd_strides a) as [|? [|? ?]];
    try done. case_decide; [|done]. by intros [= <-].
Qed.

Lemma column_sublist a j col :
  column a j = Some col → view_positions col `sublist_of` view_positions a.
Proof.
  unfold column, view_positions.
  destruct (nd_shape a) as [|n0 [|n1 sh]], (nd_strides a) as [|s0 [|s1 st]];
    try done.
  case_decide as Hj; [|done]. intros [= <-]. simpl.
  apply bind_sublist. intros i _.
  replace (nd_offset a + Z.of_nat j * s1 + Z.of_nat i * s0)
    with (nd_offset a + Z.of_nat i * s0 + Z.of_nat j * s1) by lia.
  apply (bind_member_sublist
           (λ j, positions (nd_offset a + Z.of_nat i * s0 + Z.of_nat j * s1) sh st)).
  apply elem_of_seq. lia.
Qed.

End buffers.

(** ** Coordinates *)

Section coordinates.
Context {F : Type} `{!Arith F}.
Variable cv2 : cv2_kernels F.

Local Abbreviation M := (M F).
Local Abbreviation heap := (heap F).
Local Abbreviation transform := (transform F).

(** The run of [coords[:, j] = f(coords[:, j])] on an array whose
    elements are distinct cells of the buffer [b]. *)
Lemma update_column_run (x : loc) (a col : ndarray) (j : nat) (g : M (F → F))
    (f : F → F) (b : list F) (hp : heap) :
  h_objs hp !! x = Some (PyArray a) →
  column a j = Some col →
  h_bufs hp !! nd_buf a = Some b →
  NoDup (view_positions a) →
  Forall (λ p, 0 ≤ p < Z.of_nat (length b)) (view_positions a) →
  (∀ hp1, g hp1 = (Return f, hp1)) →
  ∃ b',
    update_column x j g hp =
      (Return (), Heap (h_objs hp) (<[nd_buf a:=b']> (h_bufs hp))) ∧
    length b' = length b ∧
    ∀ q, peek b' q =
         if decide (q ∈ view_positions col) then f <$> peek b q else peek b q.
Proof.
  intros Hx Hcol Hb Hnd Hin Hg.
  pose proof (column_sublist _ _ _ Hcol) as Hsub.
  pose proof (column_buf _ _ _ Hcol) as Hbuf.
  destruct (in_place_spec f b (view_positions col) b) as (vs & b' & Hga & Hsc & Hlen & Hpeek).
  { eapply sublist_NoDup; eauto. }
  { eapply Forall_forall. intros p Hp. eapply Forall_forall in Hin; [exact Hin|].
    eapply sublist_subseteq; eauto. }
  { done. }
  exists b'. split; [|done].
  unfold update_column.
  run_array Hx.
  rewrite Hcol. simpl. rewrite bind_ret_l.
  assert (Hread : read_view col hp = (Return vs, hp)).
  { unfold read_view. rewrite Hbuf, Hb. simpl. by rewrite Hga. }
  run_with Hread.
  run_with (Hg hp).
  unfold write_view. rewrite Hbuf, Hb. simpl. by rewrite Hsc.
Qed.

Lemma scale_factor_run (new old : Z) (hp : heap) :
  old ≠ 0 →
  (s ← scale_factor new old; mret (λ v, f_mul v s)) hp =
    (Return (λ v, f_mul v (f_div (f_mul (of_int new) f_one) (of_int old))), hp).
Proof. intros Hold. unfold scale_factor. by rewrite decide_False. Qed.

(** The run of [ResizeTransform.apply_coords]: the array is returned, its
    columns 0 and 1 scaled in its buffer. *)
Lemma resize_coords_run (h w new_h new_w interp : Z) (x : loc) (a c0 c1 : ndarray)
    (b : list F) (hp : heap) :
  h_objs hp !! x = Some (PyArray a) →
  column a 0 = Some c0 →
  column a 1 = Some c1 →
  h_bufs hp !! nd_buf a = Some b →
  NoDup (view_positions a) →
  Forall (λ p, 0 ≤ p < Z.of_nat (length b)) (view_positions a) →
  w ≠ 0 → h ≠ 0 →
  let sx := f_div (f_mul (of_int new_w) f_one) (of_int w) in
  let sy := f_div (f_mul (of_int new_h) f_one) (of_int h) in
  ∃ b2,
    invoke cv2 (ResizeTransform h w new_h new_w interp) "apply_coords" x hp =
      (Return x, Heap (h_objs hp) (<[nd_buf a:=b2]> (h_bufs hp))) ∧
    length b2 = length b ∧
    ∀ q, peek b2 q =
         (λ v, if decide (q ∈ view_positions c1) then f_mul v sy else v) <$>
         ((λ v, if decide (q ∈ view_positions c0) then f_mul v sx else v) <$> peek b q).
Proof.
  intros Hx Hc0 Hc1 Hb Hnd Hin Hw Hh sx sy.
  destruct (update_column_run x a c0 0 _ _ b hp Hx Hc0 Hb Hnd Hin
              (λ hp1, scale_factor_run new_w w hp1 Hw)) as (b1 & Hrun1 & Hlen1 & Hpeek1).
  set (hp1 := Heap (h_objs hp) (<[nd_buf a:=b1]> (h_bufs hp))) in *.
  destruct (update_column_run x a c1 1
              (s ← scale_factor new_h h; mret (λ v, f_mul v s)) (λ v, f_mul v sy)
              b1 hp1 Hx Hc1 (lookup_insert_eq _ _ _) Hnd)
    as (b2 & Hrun2 & Hlen2 & Hpeek2).
  { by rewrite Hlen1. }
  { intros hp2. by apply scale_factor_run. }
  exists b2. split; [|split].
  - unfold invoke. simpl. unfold ResizeTransform_apply_coords.
    run_with Hrun1.
    run_with Hrun2.
    simpl. unfold mret, M_ret. subst hp1. simpl. by rewrite insert_insert_eq.
  - congruence.
  - intros q. rewrite Hpeek2, Hpeek1.
    destruct (peek b q); repeat case_decide; reflexivity.
Qed.

(** *** Arrays of shape (n, 2) *)

Lemma NoDup_bind_inv {A B} (f : A → list B) (l : list A) :
  NoDup (l ≫= f) →
  (∀ x, x ∈ l → NoDup (f x)) ∧
  (∀ x1 x2 y, x1 ∈ l → x2 ∈ l → y ∈ f x1 → y ∈ f x2 → x1 = x2).
Proof.
  induction l as [|a l IH]; csimpl.
  - intros _. split; intros *; by intros ?%elem_of_nil.
  - intros (Ha & Hdisj & Hl)%NoDup_app. destruct (IH Hl) as [IH1 IH2]. split.
    + intros x [->|Hx]%elem_of_cons; auto.
    + intros x1 x2 y [->|H1]%elem_of_cons [->|H2]%elem_of_cons Hy1 Hy2; auto.
      * exfalso. eapply Hdisj; [exact Hy1|]. apply list_elem_of_bind. eauto.
      * exfalso. eapply Hdisj; [exact Hy2|]. apply list_elem_of_bind. eauto.
      * eauto.
Qed.

Lemma positions_2d (a : ndarray) (n : nat) (s0 s1 : Z) :
  nd_shape a = [n; 2%nat] → nd_strides a = [s0; s1] →
  view_positions a = i ← seq 0 n; [element2 a s0 s1 i 0; element2 a s0 s1 i 1].
Proof. intros Hs Ht. unfold view_positions. rewrite Hs, Ht. reflexivity. Qed.

Lemma column_2d (a : ndarray) (n : nat) (s0 s1 : Z) (j : nat) :
  nd_shape a = [n; 2%nat] → nd_strides a = [s0; s1] → (j < 2)%nat →
  ∃ c, column a j = Some c ∧
       ∀ q, q ∈ view_positions c ↔ ∃ i, (i < n)%nat ∧ q = element2 a s0 s1 i j.
Proof.
  intros Hs Ht Hj. unfold column. rewrite Hs, Ht. rewrite decide_True by done.
  eexists. split; [reflexivity|]. intros q. unfold view_positions. simpl.
  rewrite list_elem_of_bind. unfold element2. split.
  - intros (i & ->%list_elem_of_singleton & Hi%elem_of_seq).
    exists i. split; lia.
  - intros (i & Hi & ->). exists i. split.
    + apply list_elem_of_singleton. lia.
    + apply elem_of_seq. lia.
Qed.

Lemma element2_inj (a : ndarray) (n : nat) (s0 s1 : Z) (i i' j j' : nat) :
  nd_shape a = [n; 2%nat] → nd_strides a = [s0; s1] →
  NoDup (view_positions a) →
  (i < n)%nat → (i' < n)%nat → (j < 2)%nat → (j' < 2)%nat →
  element2 a s0 s1 i j = element2 a s0 s1 i' j' → i = i' ∧ j = j'.
Proof.
  intros Hs Ht Hnd Hi Hi' Hj Hj' Heq.
  rewrite (positions_2d a n s0 s1 Hs Ht) in Hnd.
  apply NoDup_bind_inv in Hnd as [Hin Hout].
  assert (Hmem : ∀ k l, (l < 2)%nat →
    element2 a s0 s1 k l ∈ [element2 a s0 s1 k 0; element2 a s0 s1 k 1]).
  { intros k l Hl. destruct l as [|[|l]]; [left | right; left | lia]. }
  assert (i = i') as <-.
  { apply (Hout i i' (element2 a s0 s1 i j)); try (apply elem_of_seq; lia).
    - by apply Hmem.
    - rewrite Heq. by apply Hmem. }
  split; [reflexivity|].
  specialize (Hin i). rewrite elem_of_seq in Hin. specialize (Hin ltac:(lia)).
  apply NoDup_cons in Hin as [Hne _]. rewrite list_elem_of_singleton in Hne.
  destruct j as [|[|j]], j' as [|[|j']]; try lia; congruence.
Qed.

(** What [read_coords] reads, taken apart. *)
Lemma read_coords_inv (x : loc) (hp : heap) (pts : list (F * F)) :
  read_coords x hp = Some pts →
  ∃ a n s0 s1 b,
    h_objs hp !! x = Some (PyArray a) ∧
    nd_shape a = [n; 2%nat] ∧ nd_strides a = [s0; s1] ∧
    h_bufs hp !! nd_buf a = Some b ∧
    mapM (λ i, px ← peek b (element2 a s0 s1 i 0);
               py ← peek b (element2 a s0 s1 i 1);
               Some (px, py)) (seq 0 n) = Some pts.
Proof.
  unfold read_coords. destruct (h_objs hp !! x) as [[a|]|]; try done.
  destruct (nd_shape a) as [|n [|m [|? ?]]] eqn:Hs; try done;
    destruct m as [|[|[|?]]]; try done.
  destruct (nd_strides a) as [|s0 [|s1 [|? ?]]] eqn:Ht; try done.
  destruct (h_bufs hp !! nd_buf a) as [b|] eqn:Hb; [|done]. simpl.
  intros Hm. by exists a, n, s0, s1, b.
Qed.

Lemma read_coords_eq (x : loc) (hp : heap) (a : ndarray) (n : nat) (s0 s1 : Z)
    (b : list F) :
  h_objs hp !! x = Some (PyArray a) →
  nd_shape a = [n; 2%nat] → nd_strides a = [s0; s1] →
  h_bufs hp !! nd_buf a = Some b →
  read_coords x hp =
    mapM (λ i, px ← peek b (element2 a s0 s1 i 0);
               py ← peek b (element2 a s0 s1 i 1);
               Some (px, py)) (seq 0 n).
Proof. intros Hx Hs Ht Hb. unfold read_coords. by rewrite Hx, Hs, Ht, Hb. Qed.

Lemma mapM_seq_Some {A} (f : nat → option A) (n : nat) (l : list A) :
  mapM f (seq 0 n) = Some l ↔
  length l = n ∧ ∀ i y, l !! i = Some y → f i = Some y.
Proof.
  rewrite mapM_Some, Forall2_same_length_lookup, length_seq. split.
  - intros [Hlen Hl]. split; [done|]. intros i y Hy.
    apply (Hl i); [|done]. apply lookup_seq. split; [done|].
    rewrite Hlen. eapply lookup_lt_Some; eauto.
  - intros [Hlen Hl]. split; [done|]. intros i k y [-> _]%lookup_seq Hy.
    by apply Hl.
Qed.

(** Reading the points tells that the elements are within the buffer. *)
Lemma read_coords_in_bounds (a : ndarray) (n : nat) (s0 s1 : Z) (b : list F)
    (pts : list (F * F)) :
  nd_shape a = [n; 2%nat] → nd_strides a = [s0; s1] →
  mapM (λ i, px ← peek b (element2 a s0 s1 i 0);
             py ← peek b (element2 a s0 s1 i 1);
             Some (px, py)) (seq 0 n) = Some pts →
  Forall (λ p, 0 ≤ p < Z.of_nat (length b)) (view_positions a).
Proof.
  intros Hs Ht Hm. rewrite (positions_2d a n s0 s1 Hs Ht).
  apply Forall_bind, Forall_forall. intros i Hi. simpl.
  assert (is_Some (mapM (λ i, px ← peek b (element2 a s0 s1 i 0);
             py ← peek b (element2 a s0 s1 i 1);
             Some (px, py)) (seq 0 n))) as Hsome by (by rewrite Hm).
  apply mapM_is_Some_1 in Hsome. rewrite Forall_forall in Hsome.
  destruct (Hsome i Hi) as [[px py] Hpt]. simpl in Hpt.
  destruct (peek b (element2 a s0 s1 i 0)) eqn:H0; [|done].
  destruct (peek b (element2 a s0 s1 i 1)) eqn:H1; [|done].
  repeat apply Forall_cons_2; [| |constructor]; apply peek_is_Some; eauto.
Qed.

(** *** ResizeTransform.apply_coords on a coordinate set *)

Lemma resize_coords_points (h w new_h new_w interp : Z) (x : loc)
    (pts : list (F * F)) (hp : heap) :
  coords_at hp x pts → w ≠ 0 → h ≠ 0 →
  let sx := f_div (f_mul (of_int new_w) f_one) (of_int w) in
  let sy := f_div (f_mul (of_int new_h) f_one) (of_int h) in
  ∃ hp1,
    invoke cv2 (ResizeTransform h w new_h new_w interp) "apply_coords" x hp =
      (Return x, hp1) ∧
    coords_at hp1 x ((λ pt, (f_mul pt.1 sx, f_mul pt.2 sy)) <$> pts).
Proof.
  intros [Hread (a' & Hx' & Hnd)] Hw Hh sx sy.
  destruct (read_coords_inv _ _ _ Hread) as (a & n & s0 & s1 & b & Hx & Hs & Ht & Hb & Hm).
  assert (a' = a) as -> by congruence.
  pose proof (read_coords_in_bounds a n s0 s1 b pts Hs Ht Hm) as Hin.
  destruct (column_2d a n s0 s1 0 Hs Ht) as (c0 & Hc0 & Hmem0); [lia|].
  destruct (column_2d a n s0 s1 1 Hs Ht) as (c1 & Hc1 & Hmem1); [lia|].
  destruct (resize_coords_run h w new_h new_w interp x a c0 c1 b hp
              Hx Hc0 Hc1 Hb Hnd Hin Hw Hh) as (b2 & Hrun & Hlen & Hpeek).
  eexists. split; [exact Hrun|]. split; [|exists a; by split].
  erewrite (read_coords_eq x _ a n s0 s1 b2);
    [|exact Hx|exact Hs|exact Ht|apply lookup_insert_eq].
  apply mapM_seq_Some in Hm as [Hlen' Hm]. apply mapM_seq_Some.
  split; [by rewrite length_fmap|]. intros i y Hy.
  rewrite list_lookup_fmap in Hy.
  destruct (pts !! i) as [[px py]|] eqn:Hpt; [|discriminate Hy].
  injection Hy as <-.
  assert (Hi : (i < n)%nat) by (rewrite <- Hlen'; eapply lookup_lt_Some; eauto).
  specialize (Hm i _ Hpt). simpl in Hm.
  destruct (peek b (element2 a s0 s1 i 0)) as [px'|] eqn:H0; [|done].
  destruct (peek b (element2 a s0 s1 i 1)) as [py'|] eqn:H1; [|done].
  injection Hm as -> ->. rewrite !Hpeek, H0, H1. simpl.
  rewrite (decide_True (P := _ ∈ view_positions c0))
    by (apply Hmem0; exists i; by split).
  rewrite (decide_False (P := element2 a s0 s1 i 0 ∈ view_positions c1)).
  2: { intros (i' & Hi' & Heq)%Hmem1.
       apply (element2_inj a n s0 s1) in Heq as [_ [=]]; auto. }
  rewrite (decide_False (P := element2 a s0 s1 i 1 ∈ view_positions c0)).
  2: { intros (i' & Hi' & Heq)%Hmem0.
       apply (element2_inj a n s0 s1) in Heq as [_ [=]]; auto. }
  rewrite (decide_True (P := _ ∈ view_positions c1))
    by (apply Hmem1; exists i; by split).
  reflexivity.
Qed.

(** *** WarpAffineTransform.apply_coords on a coordinate set *)

Lemma gather_pairs (b : list F) (e0 e1 : nat → Z) (ixs : list nat) :
  ∀ pts : list (F * F),
  mapM (λ i, px ← peek b (e0 i); py ← peek b (e1 i); Some (px, py)) ixs = Some pts →
  gather b (i ← ixs; [e0 i; e1 i]) = Some (concat (pair_row <$> pts)).
Proof.
  induction ixs as [|i ixs IH]; intros pts; csimpl.
  - by intros [= <-].
  - destruct (peek b (e0 i)) as [px|] eqn:H0; [|done].
    destruct (peek b (e1 i)) as [py|] eqn:H1; [|done]. simpl.
    destruct (mapM _ ixs) as [pts'|] eqn:Hm; [|done]. intros [= <-].
    rewrite (IH pts' eq_refl). reflexivity.
Qed.

Lemma rows_pairs (pts : list (F * F)) :
  rows (length pts) 2 (concat (pair_row <$> pts)) = pair_row <$> pts.
Proof.
  induction pts as [|pt pts IH]; [done|].
  change (pair_row pt :: rows (length pts) 2 (concat (pair_row <$> pts)) =
          pair_row pt :: (pair_row <$> pts)).
  by rewrite IH.
Qed.

Lemma lookup_pairs (qs : list (F * F)) :
  ∀ (i : nat) (pt : F * F), qs !! i = Some pt →
  concat (pair_row <$> qs) !! (2 * i)%nat = Some pt.1 ∧
  concat (pair_row <$> qs) !! (2 * i + 1)%nat = Some pt.2.
Proof.
  induction qs as [|q qs IH]; intros [|i] pt Hpt; simplify_eq/=; [done|].
  replace (i + S (i + 0))%nat with (S (2 * i)) by lia.
  replace (S (2 * i) + 1)%nat with (S (2 * i + 1)) by lia.
  simpl. apply IH, Hpt.
Qed.

(** The points of a new array built from rows of two samples. *)
Lemma read_coords_new (qs : list (F * F)) (hp : heap) :
  ∃ ret hp1,
    new_array (Tensor [length qs; 2%nat] (concat (pair_row <$> qs))) hp = (Return ret, hp1) ∧
    h_objs hp !! ret = None ∧
    read_coords ret hp1 = Some qs ∧
    ∀ x pts, read_coords x hp = Some pts → read_coords x hp1 = Some pts.
Proof.
  eexists _, _. split; [apply new_array_eq|].
  split; [apply not_elem_of_dom, is_fresh|]. split.
  - unfold read_coords. simpl. rewrite lookup_insert_eq. simpl.
    rewrite lookup_insert_eq. simpl. apply mapM_seq_Some. split; [done|].
    intros i pt Hpt. destruct (lookup_pairs qs i pt Hpt) as [H0 H1].
    unfold element2, peek. simpl. rewrite !decide_True by lia.
    replace (Z.to_nat (0 + Z.of_nat i * Z.of_nat 2 + Z.of_nat 0 * Z.of_nat 1))
      with (2 * i)%nat by lia.
    replace (Z.to_nat (0 + Z.of_nat i * Z.of_nat 2 + Z.of_nat 1 * Z.of_nat 1))
      with (2 * i + 1)%nat by lia.
    rewrite H0, H1. by destruct pt.
  - intros x pts Hread.
    destruct (read_coords_inv _ _ _ Hread) as (a & n & s0 & s1 & b & Hx & Hs & Ht & Hb & Hm).
    rewrite <- Hm. apply read_coords_eq; try done; simpl.
    + rewrite lookup_insert_ne; [done|]. intros <-.
      pose proof (is_fresh (dom (h_objs hp))) as Hf. apply Hf, elem_of_dom. eauto.
    + rewrite lookup_insert_ne; [done|]. intros Heq.
      pose proof (is_fresh (dom (h_bufs hp))) as Hf. apply Hf, elem_of_dom.
      rewrite Heq. eauto.
Qed.

Lemma warp_coords_points (m00 m01 m02 m10 m11 m12 : F) (dsize : Z * Z)
    (interp borderMode : Z) (borderValue : F) (x : loc) (pts : list (F * F))
    (hp : heap) :
  read_coords x hp = Some pts →
  ∃ ret hp1,
    invoke cv2
      (WarpAffineTransform [[m00; m01; m02]; [m10; m11; m12]] dsize interp
         borderMode borderValue) "apply_coords" x hp = (Return ret, hp1) ∧
    h_objs hp !! ret = None ∧
    read_coords ret hp1 =
      Some ((λ pt, (dot [pt.1; pt.2; f_one] [m00; m01; m02],
                    dot [pt.1; pt.2; f_one] [m10; m11; m12])) <$> pts) ∧
    read_coords x hp1 = Some pts.
Proof.
  intros Hread.
  destruct (read_coords_inv _ _ _ Hread) as (a & n & s0 & s1 & b & Hx & Hs & Ht & Hb & Hm).
  set (affine := λ pt : F * F, (dot [pt.1; pt.2; f_one] [m00; m01; m02],
                                dot [pt.1; pt.2; f_one] [m10; m11; m12])).
  destruct (read_coords_new (affine <$> pts) hp) as (ret & hp1 & Hnew & Hfresh & Hret & Hkeep).
  exists ret, hp1. split; [|split; [done|split; [done|by apply Hkeep]]].
  assert (Hn : n = length pts).
  { apply mapM_seq_Some in Hm as [Hlen _]. done. }
  assert (Hview : read_view a hp = (Return (concat (pair_row <$> pts)), hp)).
  { unfold read_view. rewrite Hb. simpl.
    rewrite (positions_2d a n s0 s1 Hs Ht).
    by rewrite (gather_pairs b _ _ _ pts Hm). }
  unfold invoke. simpl. unfold WarpAffineTransform_apply_coords.
  run_array Hx.
  rewrite Hs. run_with Hview.
  rewrite Hn, rows_pairs. unfold dot_transposed.
  rewrite decide_True.
  2: { repeat constructor. }
  simpl. rewrite bind_ret_l. rewrite <- Hnew. f_equal. f_equal.
  - by rewrite length_fmap.
  - f_equal. rewrite <- !list_fmap_compose. by apply list_fmap_ext.
Qed.

(** A declared width of 0 is a division by zero, raised before anything is
    stored. *)
Lemma resize_coords_zero_width (h new_h new_w interp : Z) (x : loc)
    (pts : list (F * F)) (hp : heap) :
  coords_at hp x pts →
  invoke cv2 (ResizeTransform h 0 new_h new_w interp) "apply_coords" x hp =
    (Raise ZeroDivisionError, hp).
Proof.
  intros [Hread (a' & Hx' & Hnd)].
  destruct (read_coords_inv _ _ _ Hread) as (a & n & s0 & s1 & b & Hx & Hs & Ht & Hb & Hm).
  assert (a' = a) as -> by congruence.
  pose proof (read_coords_in_bounds a n s0 s1 b pts Hs Ht Hm) as Hin.
  destruct (column_2d a n s0 s1 0 Hs Ht) as (c0 & Hc0 & _); [lia|].
  destruct (in_place_spec id b (view_positions c0) b) as (vs & _ & Hga & _).
  { eapply sublist_NoDup; [exact Hnd | by apply (column_sublist a 0)]. }
  { eapply Forall_forall. intros p Hp. eapply Forall_forall in Hin; [exact Hin|].
    eapply sublist_subseteq; [by apply (column_sublist a 0) | exact Hp]. }
  { done. }
  assert (Hrd : read_view c0 hp = (Return vs, hp)).
  { unfold read_view. rewrite (column_buf _ _ _ Hc0), Hb. simpl. by rewrite Hga. }
  unfold invoke. simpl. unfold ResizeTransform_apply_coords, update_column.
  apply bind_raise. run_array Hx. rewrite Hc0. simpl. rewrite bind_ret_l.
  run_with Hrd. reflexivity.
Qed.

End coordinates.

(** ** Exact arithmetic *)

Section exact.
Variable cv2 : cv2_kernels Qc.

Lemma of_int_nonzero (z : Z) : z ≠ 0 → of_int (F:=Qc) z ≠ 0%Qc.
Proof.
  intros Hz Heq. apply Hz. simpl in Heq.
  apply Q2Qc_eq_iff in Heq. apply (inject_Z_injective z 0). exact Heq.
Qed.

Lemma mul_one_exact (v : Qc) : f_mul v f_one = v.
Proof. simpl. ring. Qed.

(** In exact arithmetic the scaling by new / old is undone by the scaling
    by old / new: the heap after the two calls is the heap before them. *)
Lemma resize_round_trip_exact (h w new_h new_w interp : Z) (x : loc)
    (pts : list (Qc * Qc)) (hp : heap Qc) :
  0 < h → 0 < w → 0 < new_h → 0 < new_w →
  coords_at hp x pts →
  ∃ hp1,
    (x1 ← invoke cv2 (ResizeTransform h w new_h new_w interp) "apply_coords" x;
     invoke cv2 (ResizeTransform new_h new_w h w interp) "apply_coords" x1) hp =
      (Return x, hp1) ∧
    read_coords x hp1 = Some pts ∧
    hp1 = hp.
Proof.
  intros Hh Hw Hnh Hnw [Hread (a' & Hx' & Hnd)].
  destruct (read_coords_inv _ _ _ Hread) as (a & n & s0 & s1 & b & Hx & Hs & Ht & Hb & Hm).
  assert (a' = a) as -> by congruence.
  pose proof (read_coords_in_bounds a n s0 s1 b pts Hs Ht Hm) as Hin.
  destruct (column_2d a n s0 s1 0 Hs Ht) as (c0 & Hc0 & _); [lia|].
  destruct (column_2d a n s0 s1 1 Hs Ht) as (c1 & Hc1 & _); [lia|].
  destruct (resize_coords_run cv2 h w new_h new_w interp x a c0 c1 b hp
              Hx Hc0 Hc1 Hb Hnd Hin) as (b2 & Hrun1 & Hlen1 & Hpeek1); [lia..|].
  set (hp2 := Heap (h_objs hp) (<[nd_buf a:=b2]> (h_bufs hp))) in *.
  destruct (resize_coords_run cv2 new_h new_w h w interp x a c0 c1 b2 hp2
              Hx Hc0 Hc1 (lookup_insert_eq _ _ _) Hnd)
    as (b4 & Hrun2 & Hlen2 & Hpeek2); [by rewrite Hlen1 | lia..|].
  assert (b4 = b) as ->.
  { apply peek_ext; [congruence|]. intros q. rewrite Hpeek2, Hpeek1.
    destruct (peek b q) as [v|]; [|reflexivity]. simpl. f_equal.
    pose proof (of_int_nonzero h ltac:(lia)). pose proof (of_int_nonzero w ltac:(lia)).
    pose proof (of_int_nonzero new_h ltac:(lia)).
    pose proof (of_int_nonzero new_w ltac:(lia)).
    unfold f_mul, f_div, f_one, of_int in *. simpl in *.
    repeat case_decide; try reflexivity; field; repeat split; assumption. }
  assert (Hhp : Heap (h_objs hp2) (<[nd_buf a:=b]> (h_bufs hp2)) = hp).
  { subst hp2. simpl. rewrite insert_insert_eq, insert_id by done.
    by destruct hp. }
  exists hp. split; [|by split].
  run_with Hrun1. rewrite Hrun2. by rewrite Hhp.
Qed.

End exact.

(** ** Resize on coordinates, in any arithmetic and in binary64 *)

(** C4: apply_coords of a Resize transform with original size (h, w) and
    target size (new_h, new_w) maps each point (x, y) of the coordinate set
    to (x * (new_w / w), y * (new_h / h)), each axis by its own factor.
    The products and quotients are those of the arithmetic of the samples,
    with no rounding to integers: in binary64, the sizes 100 x 100 and
    50 x 50 map (50, 50) to (25, 25), (0, 0) to (0, 0), and (1, 3) to
    (0.5, 1.5). *)
Theorem resize_apply_coords_scales_points :
  (∀ (F : Type) (A : Arith F) (cv2 : cv2_kernels F) (h w new_h new_w interp : Z)
     (x : loc) (pts : list (F * F)) (hp : heap F),
     (∀ v : F, f_mul v f_one = v) → w ≠ 0 → h ≠ 0 →
     coords_at hp x pts →
     ∃ hp1,
       invoke cv2 (ResizeTransform h w new_h new_w interp) "apply_coords" x hp =
         (Return x, hp1) ∧
       read_coords x hp1 =
         Some ((λ pt, (f_mul pt.1 (f_div (of_int new_w) (of_int w)),
                       f_mul pt.2 (f_div (of_int new_h) (of_int h)))) <$> pts)) ∧
  read_coords 1%positive
    (invoke reference_kernels (ResizeTransform 100 100 50 50 1) "apply_coords"
       1%positive (two_points (F:=float))).2 = Some [(25, 25); (0, 0)]%float ∧
  read_coords 1%positive
    (invoke reference_kernels (ResizeTransform 100 100 50 50 1) "apply_coords"
       1%positive (one_point (F:=float) 1 3)).2 = Some [(0.5, 1.5)]%float.
Proof.
  split; [|split; vm_compute; reflexivity].
  intros F A cv2 h w new_h new_w interp x pts hp Hone Hw Hh Hat.
  destruct (resize_coords_points cv2 h w new_h new_w interp x pts hp Hat Hw Hh)
    as (hp1 & Hrun & Hread & _).
  exists hp1. split; [exact Hrun|]. by rewrite !Hone in Hread.
Qed.

(** ** Affine warp on coordinates *)

(** C7: apply_coords of an Affine Warp transform with the 2 x 3 matrix M
    returns a new coordinate set in which each point (x, y) has become
    [x, y, 1] . M^T, that is (m00 x + m01 y + m02, m10 x + m11 y + m12).
    With the matrix [[1, 0, 0], [0, 1, 0]] the coordinates keep their
    values (in exact arithmetic; in binary64, on the points (50, 50) and
    (0, 0)). *)
Theorem warp_affine_apply_coords_is_affine_map :
  (∀ (F : Type) (A : Arith F) (cv2 : cv2_kernels F) (m00 m01 m02 m10 m11 m12 : F)
     (dsize : Z * Z) (interp borderMode : Z) (borderValue : F) (x : loc)
     (pts : list (F * F)) (hp : heap F),
     read_coords x hp = Some pts →
     ∃ ret hp1,
       invoke cv2
         (WarpAffineTransform [[m00; m01; m02]; [m10; m11; m12]] dsize interp
            borderMode borderValue) "apply_coords" x hp = (Return ret, hp1) ∧
       read_coords ret hp1 =
         Some ((λ pt,
                  (f_add (f_add (f_mul pt.1 m00) (f_mul pt.2 m01)) (f_mul f_one m02),
                   f_add (f_add (f_mul pt.1 m10) (f_mul pt.2 m11)) (f_mul f_one m12)))
               <$> pts)) ∧
  (∀ (cv2 : cv2_kernels Qc) (dsize : Z * Z) (interp borderMode : Z) (borderValue : Qc)
     (x : loc) (pts : list (Qc * Qc)) (hp : heap Qc),
     read_coords x hp = Some pts →
     ∃ ret hp1,
       invoke cv2
         (WarpAffineTransform [[1; 0; 0]; [0; 1; 0]]%Qc dsize interp
            borderMode borderValue) "apply_coords" x hp = (Return ret, hp1) ∧
       read_coords ret hp1 = Some pts) ∧
  (let run :=
     invoke reference_kernels
       (WarpAffineTransform [[1; 0; 0]; [0; 1; 0]]%float (2, 2) 1 0 0%float)
       "apply_coords" 1%positive (two_points (F:=float)) in
   run.1 = Return 2%positive ∧
   read_coords 2%positive run.2 = Some [(50, 50); (0, 0)]%float).
Proof.
  split; [|split; [|split; vm_compute; reflexivity]].
  - intros F A cv2 m00 m01 m02 m10 m11 m12 dsize interp bm bv x pts hp Hread.
    destruct (warp_coords_points cv2 m00 m01 m02 m10 m11 m12 dsize interp bm bv
                x pts hp Hread) as (ret & hp1 & Hrun & _ & Hret & _).
    exists ret, hp1. split; [exact Hrun | exact Hret].
  - intros cv2 dsize interp bm bv x pts hp Hread.
    destruct (warp_coords_points cv2 1%Qc 0%Qc 0%Qc 0%Qc 1%Qc 0%Qc dsize interp bm bv
                x pts hp Hread) as (ret & hp1 & Hrun & _ & Hret & _).
    exists ret, hp1. split; [exact Hrun|]. rewrite Hret. f_equal.
    rewrite <- (list_fmap_id pts) at 2. apply list_fmap_ext.
    intros _ [px py] _. unfold dot. simpl. f_equal; ring.
Qed.

(** ** Round trip of a resize *)

(** C8: with positive dimensions, Resize(h, w, new_h, new_w).apply_coords
    followed by Resize(new_h, new_w, h, w).apply_coords, with the same
    interpolation, gives every coordinate its original value back.  In
    exact rational arithmetic the values are the original ones, and the
    heap is the one before the two calls.  In binary64 the values are
    rounded: for the sizes 100 x 70 and 30 x 33 the point (1, 3) comes back
    as (1 - 2^-53, 3), within 2^-52 of the original. *)
Theorem resize_round_trip_restores_coords :
  (∀ (cv2 : cv2_kernels Qc) (h w new_h new_w interp : Z) (x : loc)
     (pts : list (Qc * Qc)) (hp : heap Qc),
     0 < h → 0 < w → 0 < new_h → 0 < new_w →
     coords_at hp x pts →
     ∃ hp1,
       (x1 ← invoke cv2 (ResizeTransform h w new_h new_w interp) "apply_coords" x;
        invoke cv2 (ResizeTransform new_h new_w h w interp) "apply_coords" x1) hp =
         (Return x, hp1) ∧
       read_coords x hp1 = Some pts ∧
       hp1 = hp) ∧
  (let run :=
     (x1 ← invoke reference_kernels (ResizeTransform 100 70 30 33 1) "apply_coords" 1%positive;
      invoke reference_kernels (ResizeTransform 30 33 100 70 1) "apply_coords" x1)
       (one_point (F:=float) 1 3) in
   ∃ px py,
     read_coords 1%positive run.2 = Some [(px, py)] ∧
     PrimFloat.eqb px 1 = false ∧
     PrimFloat.leb (PrimFloat.abs (px - 1)) 0x1p-52 = true ∧
     PrimFloat.eqb py 3 = true)%float.
Proof.
  split.
  - intros cv2 h w new_h new_w interp x pts hp Hh Hw Hnh Hnw Hat.
    by apply resize_round_trip_exact.
  - eexists _, _. vm_compute. repeat split.
Qed.

(** ** Laws of composition *)

Section composition_laws.
Context {F : Type} `{!Arith F}.
Variable cv2 : cv2_kernels F.

Local Abbreviation M := (M F).
Local Abbreviation heap := (heap F).
Local Abbreviation transform := (transform F).

Lemma bind_ret_r {A} (m : M A) (hp : heap) : (m ≫= mret) hp = m hp.
Proof.
  unfold mbind, M_bind. destruct (m hp) as [[e|a] hp1]; reflexivity.
Qed.

Lemma composite_as_loop (tfms : list transform) (meth : string) (x : loc) (hp : heap) :
  String.prefix "apply_" meth = true →
  invoke cv2 (TransformList tfms) meth x hp =
    apply_loop (λ t, invoke cv2 t meth) tfms x hp.
Proof. intros Hp. by rewrite TransformList_apply_unfold. Qed.

Lemma noop_invoke (meth : string) (x : loc) (hp : heap) :
  String.prefix "apply_" meth = true →
  invoke cv2 NoOpTransform meth x hp = (Return x, hp).
Proof.
  intros Hp. unfold invoke. simpl.
  repeat case_decide; simpl; rewrite ?Hp; reflexivity.
Qed.

(** A name that does not start with apply_ is no attribute of a composite,
    whatever its children. *)
Lemma composite_other_name (tfms : list transform) (meth : string) (x : loc) (hp : heap) :
  String.prefix "apply_" meth = false →
  invoke cv2 (TransformList tfms) meth x hp =
    (Raise (AttributeError ("TransformList object has no attribute " +:+ meth)), hp).
Proof.
  intros Hp. unfold invoke. simpl.
  repeat case_decide; subst; try discriminate Hp. by rewrite Hp.
Qed.

(** A composite among the children of a composite can be replaced by its
    own children, in place: nesting changes nothing, for any name. *)
Theorem nested_composite_flattens (pre mid post : list transform) (meth : string)
    (x : loc) (hp : heap) :
  invoke cv2 (TransformList (pre ++ TransformList mid :: post)) meth x hp =
    invoke cv2 (TransformList (pre ++ mid ++ post)) meth x hp.
Proof.
  destruct (String.prefix "apply_" meth) eqn:Hp.
  - rewrite !composite_as_loop by done. rewrite !apply_loop_app.
    apply bind_ext; [reflexivity|]. intros x1 hp1. simpl.
    rewrite apply_loop_app. apply bind_ext; [|reflexivity].
    intros hp2. by apply composite_as_loop.
  - by rewrite !composite_other_name.
Qed.

(** The identity transform among the children of a composite can be
    dropped, and a composite of a single child is that child. *)
Theorem composite_identity_laws (pre post : list transform) (t : transform)
    (meth : string) (x : loc) (hp : heap) :
  String.prefix "apply_" meth = true →
  invoke cv2 (TransformList (pre ++ NoOpTransform :: post)) meth x hp =
    invoke cv2 (TransformList (pre ++ post)) meth x hp ∧
  invoke cv2 (TransformList [t]) meth x hp = invoke cv2 t meth x hp.
Proof.
  intros Hp. split.
  - rewrite !composite_as_loop by done. rewrite !apply_loop_app.
    apply bind_ext; [reflexivity|]. intros x1 hp1. simpl.
    run_with (noop_invoke meth x1 hp1 Hp). reflexivity.
  - rewrite composite_as_loop by done. simpl. apply bind_ret_r.
Qed.

(** The first child that raises ends the call: the composite raises what
    that child raised, in the heap that child left, whatever children come
    after it. *)
Theorem composite_raises_what_child_raises (pre post : list transform) (c : transform)
    (meth : string) (x x1 : loc) (hp hp1 hp2 : heap) (e : exn) :
  String.prefix "apply_" meth = true →
  apply_in_order cv2 pre meth x hp = (Return x1, hp1) →
  invoke cv2 c meth x1 hp1 = (Raise e, hp2) →
  invoke cv2 (TransformList (pre ++ c :: post)) meth x hp = (Raise e, hp2).
Proof.
  intros Hp Hpre Hc. rewrite composite_as_loop by done. rewrite apply_loop_app.
  erewrite bind_return by (rewrite <- Hpre; apply apply_loop_in_order).
  simpl. by apply bind_raise.
Qed.

End composition_laws.

(** ** Transforms that update the coordinates in place *)

Section in_place.
Context {F : Type} `{!Arith F}.
Variable cv2 : cv2_kernels F.

Local Abbreviation M := (M F).
Local Abbreviation heap := (heap F).
Local Abbreviation transform := (transform F).

Lemma differs_within_refl (a : ndarray) (hp : heap) : differs_within a hp hp.
Proof. split; [done|]. split; [done|]. intros b Hb. by exists b. Qed.

Lemma differs_within_trans (a : ndarray) (hp hp1 hp2 : heap) :
  differs_within a hp hp1 → differs_within a hp1 hp2 → differs_within a hp hp2.
Proof.
  intros (Ho1 & Hb1 & Hc1) (Ho2 & Hb2 & Hc2). split; [congruence|]. split.
  - intros bid Hne. rewrite Hb2, Hb1; done.
  - intros b Hb. destruct (Hc1 b Hb) as (b1 & Hb1' & Hl1 & Hp1).
    destruct (Hc2 b1 Hb1') as (b2 & Hb2' & Hl2 & Hp2).
    exists b2. split; [done|]. split; [congruence|].
    intros q Hq. rewrite Hp2, Hp1; done.
Qed.

(** One column of a coordinate set updated in place. *)
Lemma update_column_points (j : nat) (g : M (F → F)) (f : F → F) (x : loc)
    (pts : list (F * F)) (hp : heap) :
  (j < 2)%nat → coords_at hp x pts → (∀ hp1, g hp1 = (Return f, hp1)) →
  ∃ a hp1,
    h_objs hp !! x = Some (PyArray a) ∧
    update_column x j g hp = (Return (), hp1) ∧
    coords_at hp1 x (on_column j f <$> pts) ∧
    differs_within a hp hp1.
Proof.
  intros Hj [Hread (a' & Hx' & Hnd)] Hg.
  destruct (read_coords_inv _ _ _ Hread) as (a & n & s0 & s1 & b & Hx & Hs & Ht & Hb & Hm).
  assert (a' = a) as -> by congruence.
  pose proof (read_coords_in_bounds a n s0 s1 b pts Hs Ht Hm) as Hin.
  destruct (column_2d a n s0 s1 j Hs Ht Hj) as (c & Hc & Hmem).
  destruct (update_column_run x a c j g f b hp Hx Hc Hb Hnd Hin Hg)
    as (b1 & Hrun & Hlen & Hpeek).
  exists a. eexists. split; [done|]. split; [exact Hrun|]. split; [split|].
  - erewrite (read_coords_eq x _ a n s0 s1 b1);
      [|exact Hx|exact Hs|exact Ht|apply lookup_insert_eq].
    apply mapM_seq_Some in Hm as [Hlen' Hm]. apply mapM_seq_Some.
    split; [by rewrite length_fmap|]. intros i y Hy.
    rewrite list_lookup_fmap in Hy.
    destruct (pts !! i) as [[px py]|] eqn:Hpt; [|discriminate Hy].
    injection Hy as <-.
    assert (Hi : (i < n)%nat) by (rewrite <- Hlen'; eapply lookup_lt_Some; eauto).
    specialize (Hm i _ Hpt). simpl in Hm.
    destruct (peek b (element2 a s0 s1 i 0)) as [px'|] eqn:H0; [|done].
    destruct (peek b (element2 a s0 s1 i 1)) as [py'|] eqn:H1; [|done].
    injection Hm as -> ->. rewrite !Hpeek, H0, H1.
    assert (Hother : ∀ j', (j' < 2)%nat → j' ≠ j →
              element2 a s0 s1 i j' ∉ view_positions c).
    { intros j' Hj' Hne (i' & Hi' & Heq)%Hmem.
      apply (element2_inj a n s0 s1) in Heq as [_ ?]; auto. }
    destruct j as [|[|j]]; [| |lia].
    + rewrite (decide_True (P := element2 a s0 s1 i 0 ∈ view_positions c))
        by (apply Hmem; exists i; by split).
      rewrite (decide_False (P := element2 a s0 s1 i 1 ∈ view_positions c))
        by (apply Hother; lia).
      reflexivity.
    + rewrite (decide_False (P := element2 a s0 s1 i 0 ∈ view_positions c))
        by (apply Hother; lia).
      rewrite (decide_True (P := element2 a s0 s1 i 1 ∈ view_positions c))
        by (apply Hmem; exists i; by split).
      reflexivity.
  - exists a. by split.
  - split; [done|]. split.
    + intros bid Hne. simpl. by rewrite lookup_insert_ne.
    + intros b' Hb'. assert (b' = b) as -> by congruence.
      exists b1. simpl. rewrite lookup_insert_eq. split; [done|]. split; [done|].
      intros q Hq. rewrite Hpeek. rewrite decide_False; [done|].
      intros Hqc. apply Hq. eapply sublist_subseteq; [|exact Hqc].
      by apply (column_sublist a j).
Qed.

(** Columns 0 and 1 updated one after the other, as Resize and Crop do. *)
Lemma two_columns_points (g0 g1 : M (F → F)) (f0 f1 : F → F) (x : loc)
    (pts : list (F * F)) (hp : heap) :
  coords_at hp x pts →
  (∀ hp1, g0 hp1 = (Return f0, hp1)) → (∀ hp1, g1 hp1 = (Return f1, hp1)) →
  ∃ a hp1,
    h_objs hp !! x = Some (PyArray a) ∧
    (update_column x 0 g0;; update_column x 1 g1;; mret x) hp = (Return x, hp1) ∧
    coords_at hp1 x ((λ pt, (f0 pt.1, f1 pt.2)) <$> pts) ∧
    differs_within a hp hp1.
Proof.
  intros Hat Hg0 Hg1.
  destruct (update_column_points 0 g0 f0 x pts hp) as (a & hp1 & Hx & Hrun1 & Hat1 & Hd1);
    [lia|done|done|].
  destruct (update_column_points 1 g1 f1 x (on_column 0 f0 <$> pts) hp1)
    as (a' & hp2 & Hx' & Hrun2 & Hat2 & Hd2);
    [lia|exact Hat1|done|].
  assert (a' = a) as ->.
  { destruct Hd1 as (Ho & _). rewrite Ho in Hx'. congruence. }
  exists a, hp2. split; [done|]. split; [|split].
  - run_with Hrun1. run_with Hrun2. reflexivity.
  - rewrite <- list_fmap_compose in Hat2. exact Hat2.
  - by apply (differs_within_trans a hp hp1 hp2).
Qed.

Lemma resize_coords_in_place (h w new_h new_w interp : Z) (x : loc)
    (pts : list (F * F)) (hp : heap) :
  coords_at hp x pts → h ≠ 0 → w ≠ 0 →
  ∃ a hp1,
    h_objs hp !! x = Some (PyArray a) ∧
    invoke cv2 (ResizeTransform h w new_h new_w interp) "apply_coords" x hp =
      (Return x, hp1) ∧
    coords_at hp1 x
      ((λ pt, (f_mul pt.1 (f_div (f_mul (of_int new_w) f_one) (of_int w)),
               f_mul pt.2 (f_div (f_mul (of_int new_h) f_one) (of_int h)))) <$> pts) ∧
    differs_within a hp hp1.
Proof.
  intros Hat Hh Hw.
  apply (two_columns_points
           (s ← scale_factor new_w w; mret (λ v, f_mul v s))
           (s ← scale_factor new_h h; mret (λ v, f_mul v s))
           (λ v, f_mul v (f_div (f_mul (of_int new_w) f_one) (of_int w)))
           (λ v, f_mul v (f_div (f_mul (of_int new_h) f_one) (of_int h))));
    [done| |]; intros hp1; by apply scale_factor_run.
Qed.

Lemma crop_coords_in_place (y0 x0 h w : Z) (x : loc) (pts : list (F * F)) (hp : heap) :
  coords_at hp x pts →
  ∃ a hp1,
    h_objs hp !! x = Some (PyArray a) ∧
    invoke cv2 (CropTransform y0 x0 h w) "apply_coords" x hp = (Return x, hp1) ∧
    coords_at hp1 x ((λ pt, (f_sub pt.1 (of_int x0), f_sub pt.2 (of_int y0))) <$> pts) ∧
    differs_within a hp hp1.
Proof.
  intros Hat.
  by apply (two_columns_points
              (mret (λ v, f_sub v (of_int x0))) (mret (λ v, f_sub v (of_int y0)))
              (λ v, f_sub v (of_int x0)) (λ v, f_sub v (of_int y0))).
Qed.

Lemma flip_coords_in_place (h w : Z) (horiz : bool) (x : loc) (pts : list (F * F))
    (hp : heap) :
  coords_at hp x pts →
  ∃ a hp1,
    h_objs hp !! x = Some (PyArray a) ∧
    invoke cv2 (FlipTransform h w horiz) "apply_coords" x hp = (Return x, hp1) ∧
    coords_at hp1 x
      ((λ pt, if horiz then (f_sub (of_int w) pt.1, pt.2)
              else (pt.1, f_sub (of_int h) pt.2)) <$> pts) ∧
    differs_within a hp hp1.
Proof.
  intros Hat. unfold invoke. simpl. unfold FlipTransform_apply_coords.
  destruct horiz.
  - destruct (update_column_points 0 (mret (λ v, f_sub (of_int w) v))
                (λ v, f_sub (of_int w) v) x pts hp)
      as (a & hp1 & Hx & Hrun & Hat1 & Hd); [lia|done|done|].
    exists a, hp1. split; [done|]. split; [by run_with Hrun|]. by split.
  - destruct (update_column_points 1 (mret (λ v, f_sub (of_int h) v))
                (λ v, f_sub (of_int h) v) x pts hp)
      as (a & hp1 & Hx & Hrun & Hat1 & Hd); [lia|done|done|].
    exists a, hp1. split; [done|]. split; [by run_with Hrun|]. by split.
Qed.

(** apply_coords of a Crop transform subtracts the offset from every point:
    (x, y) becomes (x - x0, y - y0), in the array it was given, which it
    returns.  No point is dropped or clipped, whether or not it lies in the
    cropped region. *)
Theorem crop_apply_coords_subtracts_offset (y0 x0 h w : Z) (x : loc)
    (pts : list (F * F)) (hp : heap) :
  coords_at hp x pts →
  ∃ hp1,
    invoke cv2 (CropTransform y0 x0 h w) "apply_coords" x hp = (Return x, hp1) ∧
    read_coords x hp1 =
      Some ((λ pt, (f_sub pt.1 (of_int x0), f_sub pt.2 (of_int y0))) <$> pts).
Proof.
  intros Hat.
  destruct (crop_coords_in_place y0 x0 h w x pts hp Hat) as (a & hp1 & _ & Hrun & [Hr _] & _).
  by exists hp1.
Qed.

(** apply_coords of a Flip transform reflects one component of every
    point, in the array it was given: a horizontal flip maps (x, y) to
    (w - x, y), a vertical one to (x, h - y). *)
Theorem flip_apply_coords_reflects (h w : Z) (horiz : bool) (x : loc)
    (pts : list (F * F)) (hp : heap) :
  coords_at hp x pts →
  ∃ hp1,
    invoke cv2 (FlipTransform h w horiz) "apply_coords" x hp = (Return x, hp1) ∧
    read_coords x hp1 =
      Some ((λ pt, if horiz then (f_sub (of_int w) pt.1, pt.2)
                   else (pt.1, f_sub (of_int h) pt.2)) <$> pts).
Proof.
  intros Hat.
  destruct (flip_coords_in_place h w horiz x pts hp Hat) as (a & hp1 & _ & Hrun & [Hr _] & _).
  by exists hp1.
Qed.

(** apply_coords of Resize, Crop and Flip returns the array it was given
    and writes nowhere else: the objects of the heap, the other buffers and
    the cells of the array's buffer that are not elements of the array are
    as before. *)
Theorem apply_coords_writes_only_the_array (t : transform) (x : loc) (a : ndarray)
    (pts : list (F * F)) (hp : heap) :
  updates_in_place t →
  coords_at hp x pts →
  h_objs hp !! x = Some (PyArray a) →
  ∃ hp1,
    invoke cv2 t "apply_coords" x hp = (Return x, hp1) ∧
    differs_within a hp hp1.
Proof.
  intros Ht Hat Hx. destruct t; try done.
  - destruct Ht as [Hh Hw].
    destruct (resize_coords_in_place h w new_h new_w interp x pts hp Hat Hh Hw)
      as (a' & hp1 & Hx' & Hrun & _ & Hd).
    assert (a' = a) as -> by congruence. by exists hp1.
  - destruct (crop_coords_in_place y0 x0 h w x pts hp Hat) as (a' & hp1 & Hx' & Hrun & _ & Hd).
    assert (a' = a) as -> by congruence. by exists hp1.
  - destruct (flip_coords_in_place h w horiz x pts hp Hat) as (a' & hp1 & Hx' & Hrun & _ & Hd).
    assert (a' = a) as -> by congruence. by exists hp1.
Qed.

(** Two heaps that differ from a third one within a coordinate set, and in
    which the set has the same points, are the same heap. *)
Lemma same_points_same_heap (x : loc) (a : ndarray) (pts q : list (F * F))
    (hp hp1 hp2 : heap) :
  h_objs hp !! x = Some (PyArray a) →
  read_coords x hp = Some pts →
  differs_within a hp hp1 → differs_within a hp hp2 →
  read_coords x hp1 = Some q → read_coords x hp2 = Some q →
  hp1 = hp2.
Proof.
  intros Hx Hr (Ho1 & Hb1 & Hc1) (Ho2 & Hb2 & Hc2) Hr1 Hr2.
  destruct (read_coords_inv _ _ _ Hr) as (a0 & n & s0 & s1 & b & Hx0 & Hs & Ht & Hb & _).
  assert (a0 = a) as -> by congruence.
  destruct (Hc1 b Hb) as (b1 & Hbuf1 & Hlen1 & Hout1).
  destruct (Hc2 b Hb) as (b2 & Hbuf2 & Hlen2 & Hout2).
  assert (Hm1 : read_coords x hp1 = Some q) by done.
  assert (Hm2 : read_coords x hp2 = Some q) by done.
  rewrite (read_coords_eq x hp1 a n s0 s1 b1) in Hm1 by (rewrite ?Ho1; done).
  rewrite (read_coords_eq x hp2 a n s0 s1 b2) in Hm2 by (rewrite ?Ho2; done).
  apply mapM_seq_Some in Hm1 as [Hlenq Hm1]. apply mapM_seq_Some in Hm2 as [_ Hm2].
  assert (b1 = b2) as ->.
  { apply peek_ext; [congruence|]. intros p.
    destruct (decide (p ∈ view_positions a)) as [Hin|Hout].
    - rewrite (positions_2d a n s0 s1 Hs Ht) in Hin.
      apply list_elem_of_bind in Hin as (i & Hp & Hi%elem_of_seq).
      destruct (lookup_lt_is_Some_2 q i) as [pt Hpt]; [lia|].
      specialize (Hm1 i pt Hpt). specialize (Hm2 i pt Hpt). simpl in Hm1, Hm2.
      destruct (peek b1 (element2 a s0 s1 i 0)) as [u1|] eqn:E10; [|done].
      destruct (peek b1 (element2 a s0 s1 i 1)) as [v1|] eqn:E11; [|done].
      destruct (peek b2 (element2 a s0 s1 i 0)) as [u2|] eqn:E20; [|done].
      destruct (peek b2 (element2 a s0 s1 i 1)) as [v2|] eqn:E21; [|done].
      simplify_eq/=.
      apply elem_of_cons in Hp as [->|Hp]; [congruence|].
      apply list_elem_of_singleton in Hp as ->. congruence.
    - rewrite Hout1, Hout2; done. }
  destruct hp1 as [o1 m1], hp2 as [o2 m2]. simpl in *. f_equal; [congruence|].
  apply map_eq. intros bid. destruct (decide (bid = nd_buf a)) as [->|Hne].
  - congruence.
  - rewrite Hb1, Hb2; done.
Qed.

Lemma warp_coords_points_of (m : list (list F)) (m00 m01 m02 m10 m11 m12 : F)
    (dsize : Z * Z) (interp borderMode : Z) (borderValue : F) (x : loc)
    (pts : list (F * F)) (hp : heap) :
  m = [[m00; m01; m02]; [m10; m11; m12]] →
  read_coords x hp = Some pts →
  ∃ ret hp1,
    invoke cv2 (WarpAffineTransform m dsize interp borderMode borderValue)
      "apply_coords" x hp = (Return ret, hp1) ∧
    read_coords ret hp1 =
      Some ((λ pt, (dot [pt.1; pt.2; f_one] [m00; m01; m02],
                    dot [pt.1; pt.2; f_one] [m10; m11; m12])) <$> pts).
Proof.
  intros -> Hread.
  destruct (warp_coords_points cv2 m00 m01 m02 m10 m11 m12 dsize interp borderMode
              borderValue x pts hp Hread) as (ret & hp1 & Hrun & _ & Hret & _).
  by exists ret, hp1.
Qed.

(** An operand that raises: the column has been read, nothing is stored. *)
Lemma update_column_raises (j : nat) (g : M (F → F)) (e : exn) (x : loc)
    (pts : list (F * F)) (hp : heap) :
  (j < 2)%nat → coords_at hp x pts → g hp = (Raise e, hp) →
  update_column x j g hp = (Raise e, hp).
Proof.
  intros Hj [Hread (a' & Hx' & Hnd)] Hg.
  destruct (read_coords_inv _ _ _ Hread) as (a & n & s0 & s1 & b & Hx & Hs & Ht & Hb & Hm).
  assert (a' = a) as -> by congruence.
  pose proof (read_coords_in_bounds a n s0 s1 b pts Hs Ht Hm) as Hin.
  destruct (column_2d a n s0 s1 j Hs Ht Hj) as (c & Hc & _).
  destruct (in_place_spec id b (view_positions c) b) as (vs & _ & Hga & _).
  { eapply sublist_NoDup; [exact Hnd | by apply (column_sublist a j)]. }
  { eapply Forall_forall. intros p Hp. eapply Forall_forall in Hin; [exact Hin|].
    eapply sublist_subseteq; [by apply (column_sublist a j) | exact Hp]. }
  { done. }
  assert (Hrd : read_view c hp = (Return vs, hp)).
  { unfold read_view. rewrite (column_buf _ _ _ Hc), Hb. simpl. by rewrite Hga. }
  unfold update_column. run_array Hx. rewrite Hc. simpl. rewrite bind_ret_l.
  run_with Hrd. by apply bind_raise.
Qed.

(** A Resize transform declared with a width or a height of 0 divides by
    zero in apply_coords.  With a width of 0 nothing has been stored when
    the exception is raised.  With a height of 0 and a width that is not 0,
    the first components of the points have already been scaled: the array
    is left with its x updated and its y as they were. *)
Theorem resize_apply_coords_division_by_zero (h w new_h new_w interp : Z) (x : loc)
    (pts : list (F * F)) (hp : heap) :
  coords_at hp x pts →
  (w = 0 →
     invoke cv2 (ResizeTransform h w new_h new_w interp) "apply_coords" x hp =
       (Raise ZeroDivisionError, hp)) ∧
  (w ≠ 0 → h = 0 →
     ∃ hp1,
       invoke cv2 (ResizeTransform h w new_h new_w interp) "apply_coords" x hp =
         (Raise ZeroDivisionError, hp1) ∧
       read_coords x hp1 =
         Some ((λ pt, (f_mul pt.1 (f_div (f_mul (of_int new_w) f_one) (of_int w)),
                       pt.2)) <$> pts)).
Proof.
  intros Hat. split.
  - intros ->. unfold invoke. simpl. unfold ResizeTransform_apply_coords.
    apply bind_raise. apply (update_column_raises 0 _ _ x pts); [lia|done|].
    unfold scale_factor. by rewrite decide_True.
  - intros Hw ->.
    destruct (update_column_points 0
                (s ← scale_factor new_w w; mret (λ v, f_mul v s))
                (λ v, f_mul v (f_div (f_mul (of_int new_w) f_one) (of_int w)))
                x pts hp)
      as (a & hp1 & Hx & Hrun & Hat1 & _); [lia|done| |].
    { intros hp'. by apply scale_factor_run. }
    exists hp1. split; [|exact (proj1 Hat1)].
    unfold invoke. simpl. unfold ResizeTransform_apply_coords.
    run_with Hrun. apply bind_raise.
    apply (update_column_raises 1 _ _ x _ hp1 ltac:(lia) Hat1).
    unfold scale_factor. by rewrite decide_True.
Qed.

End in_place.

(** ** Coordinates seen through a view *)

Section views.
Context {F : Type} `{!Arith F}.
Variable cv2 : cv2_kernels F.

Local Abbreviation M := (M F).
Local Abbreviation heap := (heap F).
Local Abbreviation transform := (transform F).

Lemma mapM_swap {A} (f f' : A → option (F * F)) (l : list A) :
  (∀ i, f' i = prod_swap <$> f i) →
  mapM f' l = fmap (M:=list) prod_swap <$> mapM f l.
Proof.
  intros Hf. induction l as [|i l IH]; [done|]. simpl.
  rewrite Hf, IH. destruct (f i); [|done]. simpl. by destruct (mapM f l).
Qed.

Lemma bind_pair_permutation {A B} (p q : A → B) (l : list A) :
  (l ≫= λ i, [q i; p i]) ≡ₚ (l ≫= λ i, [p i; q i]).
Proof.
  induction l as [|i l IH]; csimpl; [done|].
  rewrite IH. apply perm_swap.
Qed.

(** The columns of an (n, 2) array in reverse order: the view that
    [coords[:, ::-1]] returns. *)
Lemma reversed_columns (a : ndarray) (n : nat) (s0 s1 : Z) :
  nd_shape a = [n; 2%nat] → nd_strides a = [s0; s1] →
  ∃ v, reverse_axis1 a = Some v ∧
       nd_buf v = nd_buf a ∧ nd_shape v = [n; 2%nat] ∧ nd_strides v = [s0; - s1] ∧
       (∀ i, element2 v s0 (- s1) i 0 = element2 a s0 s1 i 1 ∧
             element2 v s0 (- s1) i 1 = element2 a s0 s1 i 0) ∧
       (NoDup (view_positions a) → NoDup (view_positions v)).
Proof.
  intros Hs Ht. unfold reverse_axis1. rewrite Hs, Ht. eexists. split; [reflexivity|].
  split; [done|]. split; [done|]. split; [done|].
  assert (Hel : ∀ i,
    element2 (NdArray (nd_buf a) (nd_offset a + Z.max 0 (Z.of_nat 2 - 1) * s1)
                [n; 2%nat] [s0; - s1]) s0 (- s1) i 0 = element2 a s0 s1 i 1 ∧
    element2 (NdArray (nd_buf a) (nd_offset a + Z.max 0 (Z.of_nat 2 - 1) * s1)
                [n; 2%nat] [s0; - s1]) s0 (- s1) i 1 = element2 a s0 s1 i 0).
  { intros i. unfold element2. simpl. lia. }
  split; [exact Hel|]. intros Hnd.
  rewrite (positions_2d a n s0 s1 Hs Ht) in Hnd.
  erewrite positions_2d; [|reflexivity|reflexivity].
  erewrite list_bind_ext; [| |reflexivity].
  2: { intros i. destruct (Hel i) as [-> ->]. reflexivity. }
  by rewrite bind_pair_permutation.
Qed.

(** In a heap that holds an (n, 2) array and the view of its reversed
    columns, the points of the view are those of the array, swapped. *)
Lemma read_reversed_columns (x r : loc) (a v : ndarray) (n : nat) (s0 s1 : Z)
    (hp : heap) :
  nd_shape a = [n; 2%nat] → nd_strides a = [s0; s1] →
  reverse_axis1 a = Some v →
  h_objs hp !! x = Some (PyArray a) → h_objs hp !! r = Some (PyArray v) →
  read_coords r hp = fmap (M:=list) prod_swap <$> read_coords x hp.
Proof.
  intros Hs Ht Hv Hx Hr.
  destruct (reversed_columns a n s0 s1 Hs Ht) as (v' & Hv' & Hbuf & Hs' & Ht' & Hel & _).
  assert (v' = v) as -> by congruence.
  unfold read_coords. rewrite Hx, Hr, Hs, Ht, Hs', Ht', Hbuf.
  destruct (h_bufs hp !! nd_buf a) as [b|]; [|done]. simpl.
  apply mapM_swap. intros i. destruct (Hel i) as [-> ->].
  destruct (peek b (element2 a s0 s1 i 1)), (peek b (element2 a s0 s1 i 0)); done.
Qed.

(** The run of [TransposeTransform.apply_coords]. *)
Lemma transpose_coords_run (x : loc) (pts : list (F * F)) (hp : heap) :
  coords_at hp x pts →
  ∃ a v n s0 s1,
    h_objs hp !! x = Some (PyArray a) ∧
    nd_shape a = [n; 2%nat] ∧ nd_strides a = [s0; s1] ∧
    reverse_axis1 a = Some v ∧
    invoke cv2 TransposeTransform "apply_coords" x hp =
      (Return (fresh (dom (h_objs hp))),
       Heap (<[fresh (dom (h_objs hp)):=PyArray v]> (h_objs hp)) (h_bufs hp)) ∧
    coords_at (Heap (<[fresh (dom (h_objs hp)):=PyArray v]> (h_objs hp)) (h_bufs hp))
      (fresh (dom (h_objs hp))) (prod_swap <$> pts).
Proof.
  intros [Hread (a' & Hx' & Hnd)].
  destruct (read_coords_inv _ _ _ Hread) as (a & n & s0 & s1 & b & Hx & Hs & Ht & Hb & Hm).
  assert (a' = a) as -> by congruence.
  destruct (reversed_columns a n s0 s1 Hs Ht) as (v & Hv & Hbuf & Hs' & Ht' & Hel & Hndv).
  exists a, v, n, s0, s1. split; [done|]. split; [done|]. split; [done|]. split; [done|].
  assert (Hne : fresh (dom (h_objs hp)) ≠ x).
  { intros Heq. apply (is_fresh (dom (h_objs hp))). rewrite Heq.
    apply elem_of_dom. eauto. }
  split; [|split].
  - unfold invoke. simpl. unfold TransposeTransform_apply_coords.
    run_array Hx. rewrite Hv. reflexivity.
  - erewrite (read_reversed_columns x _ a v n s0 s1); try done; simpl.
    + erewrite (read_coords_eq x _ a n s0 s1 b);
        [|simpl; by rewrite lookup_insert_ne|done|done|exact Hb].
      by rewrite Hm.
    + by rewrite lookup_insert_ne.
    + by rewrite lookup_insert_eq.
  - exists v. split; [simpl; by rewrite lookup_insert_eq | by apply Hndv].
Qed.

(** apply_coords of a Transpose transform copies nothing: it returns a new
    array object over the buffer of its argument, with the columns in
    reverse order.  Read through the result, every point (x, y) is (y, x);
    the argument and all buffers are as before. *)
Theorem transpose_apply_coords_swaps_in_a_view (x : loc) (pts : list (F * F))
    (hp : heap) :
  coords_at hp x pts →
  ∃ ret v hp1,
    invoke cv2 TransposeTransform "apply_coords" x hp = (Return ret, hp1) ∧
    h_objs hp !! ret = None ∧
    h_objs hp1 = <[ret:=PyArray v]> (h_objs hp) ∧
    h_bufs hp1 = h_bufs hp ∧
    read_coords ret hp1 = Some (prod_swap <$> pts) ∧
    read_coords x hp1 = Some pts.
Proof.
  intros Hat.
  destruct (transpose_coords_run x pts hp Hat)
    as (a & v & n & s0 & s1 & Hx & Hs & Ht & Hv & Hrun & Hread & _).
  eexists _, v, _. split; [exact Hrun|].
  split; [apply not_elem_of_dom, is_fresh|]. split; [done|]. split; [done|].
  split; [exact Hread|].
  destruct Hat as [Hr _].
  destruct (read_coords_inv _ _ _ Hr) as (a' & n' & s0' & s1' & b & Hx' & Hs' & Ht' & Hb & Hm).
  rewrite <- Hm. apply read_coords_eq; try done. simpl.
  rewrite lookup_insert_ne; [done|]. intros Heq.
  apply (is_fresh (dom (h_objs hp))). rewrite Heq. apply elem_of_dom. eauto.
Qed.

(** Transposing the coordinates twice gives, through the second result,
    the points of the argument. *)
Theorem transpose_apply_coords_twice (x : loc) (pts : list (F * F)) (hp : heap) :
  coords_at hp x pts →
  ∃ ret hp1,
    (x1 ← invoke cv2 TransposeTransform "apply_coords" x;
     invoke cv2 TransposeTransform "apply_coords" x1) hp = (Return ret, hp1) ∧
    read_coords ret hp1 = Some pts.
Proof.
  intros Hat.
  destruct (transpose_coords_run x pts hp Hat)
    as (a & v & n & s0 & s1 & _ & _ & _ & _ & Hrun & Hat1).
  destruct (transpose_coords_run _ _ _ Hat1)
    as (a' & v' & n' & s0' & s1' & _ & _ & _ & _ & Hrun' & [Hread _]).
  eexists _, _. split; [run_with Hrun; exact Hrun'|].
  rewrite Hread. f_equal. rewrite <- list_fmap_compose.
  rewrite <- (list_fmap_id pts) at 2. apply list_fmap_ext. by intros _ [] _.
Qed.

(** The array that apply_coords of a Transpose transform returns shares
    the cells of its argument: in every later heap with the same objects,
    whatever has been stored in between, the points read through the result
    are the points read through the argument with their components
    swapped. *)
Theorem transpose_result_aliases_argument (x : loc) (pts : list (F * F)) (hp : heap) :
  coords_at hp x pts →
  ∃ ret hp1,
    invoke cv2 TransposeTransform "apply_coords" x hp = (Return ret, hp1) ∧
    ∀ hp2, h_objs hp2 = h_objs hp1 →
      read_coords ret hp2 =
        fmap (M:=list) (prod_swap (A:=F) (B:=F)) <$> read_coords x hp2.
Proof.
  intros Hat.
  destruct (transpose_coords_run x pts hp Hat)
    as (a & v & n & s0 & s1 & Hx & Hs & Ht & Hv & Hrun & _).
  eexists _, _. split; [exact Hrun|]. intros hp2 Hobjs. simpl in Hobjs.
  apply (read_reversed_columns x _ a v n s0 s1); try done; rewrite Hobjs.
  - rewrite lookup_insert_ne; [done|]. intros Heq.
    apply (is_fresh (dom (h_objs hp))). rewrite Heq. apply elem_of_dom. eauto.
  - by rewrite lookup_insert_eq.
Qed.

(** A transform that updates in place, applied after a transposition in a
    composite, writes through the view into the array of the caller.  With
    a Crop transform the result has the points (y - x0, x - y0), and the
    array that was passed in, which the composite does not return, is left
    with the points (x - y0, y - x0): each offset has been subtracted from
    the other component. *)
Theorem composite_writes_through_transposed_view (y0 x0 h w : Z) (x : loc)
    (pts : list (F * F)) (hp : heap) :
  coords_at hp x pts →
  ∃ ret hp1,
    invoke cv2 (TransformList [TransposeTransform; CropTransform y0 x0 h w])
      "apply_coords" x hp = (Return ret, hp1) ∧
    ret ≠ x ∧
    read_coords ret hp1 =
      Some ((λ pt, (f_sub pt.2 (of_int x0), f_sub pt.1 (of_int y0))) <$> pts) ∧
    read_coords x hp1 =
      Some ((λ pt, (f_sub pt.1 (of_int y0), f_sub pt.2 (of_int x0))) <$> pts).
Proof.
  intros Hat.
  destruct (transpose_coords_run x pts hp Hat)
    as (a & v & n & s0 & s1 & Hx & Hs & Ht & Hv & Hrun & Hat1).
  set (ret := fresh (dom (h_objs hp))) in *.
  set (hp' := Heap (<[ret:=PyArray v]> (h_objs hp)) (h_bufs hp)) in *.
  destruct (crop_coords_in_place cv2 y0 x0 h w ret _ hp' Hat1)
    as (v' & hp1 & Hret & Hcrop & [Hread _] & (Hobjs & _)).
  assert (Hne : ret ≠ x).
  { intros Heq. apply (is_fresh (dom (h_objs hp))). fold ret. rewrite Heq.
    apply elem_of_dom. eauto. }
  exists ret, hp1. split; [|split; [done|split]].
  - rewrite composite_as_loop by reflexivity. simpl.
    run_with Hrun. run_with Hcrop. reflexivity.
  - rewrite Hread. f_equal. rewrite <- list_fmap_compose.
    apply list_fmap_ext. by intros _ [px py] _.
  - pose proof (read_reversed_columns x ret a v n s0 s1 hp1 Hs Ht Hv) as Hrev.
    rewrite Hobjs in Hrev. simpl in Hrev.
    rewrite lookup_insert_ne, lookup_insert_eq in Hrev by done.
    specialize (Hrev Hx eq_refl). rewrite Hread in Hrev.
    destruct (read_coords x hp1) as [l|]; [|done]. simpl in Hrev.
    injection Hrev as Hrev. f_equal.
    apply (f_equal (fmap prod_swap)) in Hrev.
    rewrite <- !list_fmap_compose in Hrev.
    rewrite (list_fmap_ext (prod_swap ∘ prod_swap) id l) in Hrev
      by (by intros _ [] _).
    rewrite list_fmap_id in Hrev. rewrite <- Hrev.
    apply list_fmap_ext. by intros _ [px py] _.
Qed.

End views.

(** ** Laws in exact arithmetic *)

Section exact_laws.
Variable cv2 : cv2_kernels Qc.

Local Abbreviation heap := (heap Qc).
Local Abbreviation transform := (transform Qc).

Lemma of_int_add (m n : Z) : of_int (F:=Qc) (m + n) = (of_int m + of_int n)%Qc.
Proof.
  apply Qc_is_canon. change (Qred (inject_Z (m + n)) ==
    Qred (Qred (inject_Z m) + Qred (inject_Z n)))%Q.
  rewrite !Qred_correct. by rewrite inject_Z_plus.
Qed.

Lemma of_int_opp (n : Z) : of_int (F:=Qc) (- n) = (- of_int n)%Qc.
Proof.
  apply Qc_is_canon. change (Qred (inject_Z (- n)) == Qred (- Qred (inject_Z n)))%Q.
  rewrite !Qred_correct. by rewrite inject_Z_opp.
Qed.

Lemma of_int_1 : of_int (F:=Qc) 1 = 1%Qc.
Proof. by apply Qc_is_canon. Qed.

Lemma of_int_0 : of_int (F:=Qc) 0 = 0%Qc.
Proof. by apply Qc_is_canon. Qed.

(** Two runs that update the same coordinate set in place and leave the
    same points leave the same heap. *)
Lemma in_place_runs_agree (x : loc) (a : ndarray) (pts q1 q2 : list (Qc * Qc))
    (hp hp1 hp2 : heap) :
  h_objs hp !! x = Some (PyArray a) →
  coords_at hp x pts →
  coords_at hp1 x q1 → differs_within a hp hp1 →
  coords_at hp2 x q2 → differs_within a hp hp2 →
  q1 = q2 → hp1 = hp2.
Proof.
  intros Hx [Hr _] [Hr1 _] Hd1 [Hr2 _] Hd2 <-.
  by apply (same_points_same_heap x a pts q1 hp hp1 hp2).
Qed.

(** Flipping the coordinates twice, with the same transform, restores
    them: the heap is the one before the two calls. *)
Theorem flip_apply_coords_twice (h w : Z) (horiz : bool) (x : loc)
    (pts : list (Qc * Qc)) (hp : heap) :
  coords_at hp x pts →
  (x1 ← invoke cv2 (FlipTransform h w horiz) "apply_coords" x;
   invoke cv2 (FlipTransform h w horiz) "apply_coords" x1) hp = (Return x, hp).
Proof.
  intros Hat.
  destruct (flip_coords_in_place cv2 h w horiz x pts hp Hat)
    as (a & hp1 & Hx & Hrun1 & Hat1 & Hd1).
  destruct (flip_coords_in_place cv2 h w horiz x _ hp1 Hat1)
    as (a' & hp2 & Hx' & Hrun2 & Hat2 & Hd2).
  assert (a' = a) as ->.
  { destruct Hd1 as (Ho & _). rewrite Ho in Hx'. congruence. }
  run_with Hrun1. rewrite Hrun2. f_equal.
  eapply (in_place_runs_agree x a pts _ pts hp hp2 hp); try done.
  - by apply (differs_within_trans a hp hp1 hp2).
  - apply differs_within_refl.
  - rewrite <- list_fmap_compose. rewrite <- (list_fmap_id pts) at 2.
    apply list_fmap_ext. intros _ [px py] _. destruct horiz; simpl; f_equal; ring.
Qed.

(** Cropping the coordinates by one offset and then by another is cropping
    them by the sum of the offsets, and cropping by the opposite offset
    undoes a crop: the calls leave the same heap. *)
Theorem crop_apply_coords_adds_offsets (y0 x0 h0 w0 y1 x1 h1 w1 h2 w2 : Z) (x : loc)
    (pts : list (Qc * Qc)) (hp : heap) :
  coords_at hp x pts →
  (r ← invoke cv2 (CropTransform y0 x0 h0 w0) "apply_coords" x;
   invoke cv2 (CropTransform y1 x1 h1 w1) "apply_coords" r) hp =
    invoke cv2 (CropTransform (y0 + y1) (x0 + x1) h2 w2) "apply_coords" x hp ∧
  (r ← invoke cv2 (CropTransform y0 x0 h0 w0) "apply_coords" x;
   invoke cv2 (CropTransform (- y0) (- x0) h1 w1) "apply_coords" r) hp = (Return x, hp).
Proof.
  intros Hat.
  destruct (crop_coords_in_place cv2 y0 x0 h0 w0 x pts hp Hat)
    as (a & hp1 & Hx & Hrun1 & Hat1 & Hd1).
  assert (Hx1 : h_objs hp1 !! x = Some (PyArray a)).
  { destruct Hd1 as (Ho & _). by rewrite Ho. }
  split.
  - destruct (crop_coords_in_place cv2 y1 x1 h1 w1 x _ hp1 Hat1)
      as (a' & hp2 & Hx' & Hrun2 & Hat2 & Hd2).
    assert (a' = a) as -> by congruence.
    destruct (crop_coords_in_place cv2 (y0 + y1) (x0 + x1) h2 w2 x pts hp Hat)
      as (a' & hp3 & Hx'' & Hrun3 & Hat3 & Hd3).
    assert (a' = a) as -> by congruence.
    run_with Hrun1. rewrite Hrun2, Hrun3. f_equal.
    eapply (in_place_runs_agree x a pts _ _ hp hp2 hp3); try done.
    + by apply (differs_within_trans a hp hp1 hp2).
    + rewrite <- list_fmap_compose. apply list_fmap_ext.
      intros _ [px py] _. rewrite !of_int_add. simpl. f_equal; ring.
  - destruct (crop_coords_in_place cv2 (- y0) (- x0) h1 w1 x _ hp1 Hat1)
      as (a' & hp2 & Hx' & Hrun2 & Hat2 & Hd2).
    assert (a' = a) as -> by congruence.
    run_with Hrun1. rewrite Hrun2. f_equal.
    eapply (in_place_runs_agree x a pts _ pts hp hp2 hp); try done.
    + by apply (differs_within_trans a hp hp1 hp2).
    + apply differs_within_refl.
    + rewrite <- list_fmap_compose. rewrite <- (list_fmap_id pts) at 2.
      apply list_fmap_ext. intros _ [px py] _. unfold compose.
      rewrite !of_int_opp. simpl. f_equal; ring.
Qed.

(** Resizing the coordinates from one size to a second and from the second
    to a third is resizing them from the first to the third: the calls
    leave the same heap. *)
Theorem resize_apply_coords_composes (h w h2 w2 h3 w3 i1 i2 i3 : Z) (x : loc)
    (pts : list (Qc * Qc)) (hp : heap) :
  h ≠ 0 → w ≠ 0 → h2 ≠ 0 → w2 ≠ 0 →
  coords_at hp x pts →
  (r ← invoke cv2 (ResizeTransform h w h2 w2 i1) "apply_coords" x;
   invoke cv2 (ResizeTransform h2 w2 h3 w3 i2) "apply_coords" r) hp =
    invoke cv2 (ResizeTransform h w h3 w3 i3) "apply_coords" x hp.
Proof.
  intros Hh Hw Hh2 Hw2 Hat.
  destruct (resize_coords_in_place cv2 h w h2 w2 i1 x pts hp Hat Hh Hw)
    as (a & hp1 & Hx & Hrun1 & Hat1 & Hd1).
  assert (Hx1 : h_objs hp1 !! x = Some (PyArray a)).
  { destruct Hd1 as (Ho & _). by rewrite Ho. }
  destruct (resize_coords_in_place cv2 h2 w2 h3 w3 i2 x _ hp1 Hat1 Hh2 Hw2)
    as (a' & hp2 & Hx' & Hrun2 & Hat2 & Hd2).
  assert (a' = a) as -> by congruence.
  destruct (resize_coords_in_place cv2 h w h3 w3 i3 x pts hp Hat Hh Hw)
    as (a' & hp3 & Hx'' & Hrun3 & Hat3 & Hd3).
  assert (a' = a) as -> by congruence.
  run_with Hrun1. rewrite Hrun2, Hrun3. f_equal.
  eapply (in_place_runs_agree x a pts _ _ hp hp2 hp3); try done.
  - by apply (differs_within_trans a hp hp1 hp2).
  - rewrite <- list_fmap_compose. apply list_fmap_ext.
    intros _ [px py] _.
    pose proof (of_int_nonzero h Hh). pose proof (of_int_nonzero w Hw).
    pose proof (of_int_nonzero h2 Hh2). pose proof (of_int_nonzero w2 Hw2).
    unfold f_mul, f_div, f_one, of_int in *. simpl in *.
    f_equal; field; by split.
Qed.

(** Warping the coordinates by a matrix M and the result by a matrix N
    gives the points that warping by the product of N and M gives. *)
Theorem warp_affine_apply_coords_composes
    (m00 m01 m02 m10 m11 m12 n00 n01 n02 n10 n11 n12 : Qc)
    (dm dn dp : Z * Z) (im bm jn bn ip bp : Z) (vm vn vp : Qc)
    (x : loc) (pts : list (Qc * Qc)) (hp : heap) :
  let M := [[m00; m01; m02]; [m10; m11; m12]] in
  let N := [[n00; n01; n02]; [n10; n11; n12]] in
  read_coords x hp = Some pts →
  ∃ r2 hp2 r3 hp3 q,
    (r ← invoke cv2 (WarpAffineTransform M dm im bm vm) "apply_coords" x;
     invoke cv2 (WarpAffineTransform N dn jn bn vn) "apply_coords" r) hp =
      (Return r2, hp2) ∧
    invoke cv2 (WarpAffineTransform (affine_product N M) dp ip bp vp)
      "apply_coords" x hp = (Return r3, hp3) ∧
    read_coords r2 hp2 = Some q ∧ read_coords r3 hp3 = Some q.
Proof.
  intros M N Hread.
  destruct (warp_coords_points cv2 m00 m01 m02 m10 m11 m12 dm im bm vm x pts hp Hread)
    as (r1 & hp1 & Hrun1 & _ & Hread1 & _).
  edestruct (warp_coords_points cv2 n00 n01 n02 n10 n11 n12 dn jn bn vn r1 _ hp1 Hread1)
    as (r2 & hp2 & Hrun2 & _ & Hread2 & _).
  destruct (warp_coords_points_of cv2 (affine_product N M) _ _ _ _ _ _ dp ip bp vp
              x pts hp eq_refl Hread) as (r3 & hp3 & Hrun3 & Hread3).
  exists r2, hp2, r3, hp3. eexists.
  split; [run_with Hrun1; exact Hrun2|]. split; [exact Hrun3|].
  split; [exact Hread2|]. rewrite Hread3. f_equal.
  rewrite <- list_fmap_compose. apply list_fmap_ext.
  intros _ [px py] _. unfold dot. simpl. f_equal; ring.
Qed.

(** apply_coords of Resize, Crop, Flip and Transpose moves the points as
    the affine warp with the matrix of the transform does: a scaling, a
    translation, a reflection, the exchange of the axes. *)
Theorem geometric_apply_coords_is_affine (t : transform) (m : list (list Qc))
    (dsize : Z * Z) (interp borderMode : Z) (borderValue : Qc)
    (x : loc) (pts : list (Qc * Qc)) (hp : heap) :
  matrix_of t = Some m → sizes_nonzero t →
  coords_at hp x pts →
  ∃ r1 hp1 r2 hp2 q,
    invoke cv2 t "apply_coords" x hp = (Return r1, hp1) ∧
    invoke cv2 (WarpAffineTransform m dsize interp borderMode borderValue)
      "apply_coords" x hp = (Return r2, hp2) ∧
    read_coords r1 hp1 = Some q ∧ read_coords r2 hp2 = Some q.
Proof.
  intros Hm Hnz Hat. pose proof Hat as [Hread _].
  pose proof (of_int_0 : Q2Qc (inject_Z 0) = 0%Qc) as H0.
  pose proof (of_int_1 : Q2Qc (inject_Z 1) = 1%Qc) as H1.
  assert (Hm1 : Q2Qc (inject_Z (-1)) = (- 1)%Qc) by (by apply Qc_is_canon).
  pose proof (λ z, of_int_opp z : Q2Qc (inject_Z (- z)) = (- Q2Qc (inject_Z z))%Qc)
    as Hopp.
  assert (Hwarp : ∀ m00 m01 m02 m10 m11 m12 (q : list (Qc * Qc)) r1 hp1,
    m = [[m00; m01; m02]; [m10; m11; m12]] →
    invoke cv2 t "apply_coords" x hp = (Return r1, hp1) →
    read_coords r1 hp1 = Some q →
    q = (λ pt, (dot [pt.1; pt.2; f_one] [m00; m01; m02],
                dot [pt.1; pt.2; f_one] [m10; m11; m12])) <$> pts →
    ∃ r1 hp1 r2 hp2 q,
      invoke cv2 t "apply_coords" x hp = (Return r1, hp1) ∧
      invoke cv2 (WarpAffineTransform m dsize interp borderMode borderValue)
        "apply_coords" x hp = (Return r2, hp2) ∧
      read_coords r1 hp1 = Some q ∧ read_coords r2 hp2 = Some q).
  { intros m00 m01 m02 m10 m11 m12 q r1 hp1 Heq Hrun Hr ->.
    destruct (warp_coords_points_of cv2 m m00 m01 m02 m10 m11 m12 dsize interp
                borderMode borderValue x pts hp Heq Hread) as (r2 & hp2 & Hrun2 & Hr2).
    by eexists r1, hp1, r2, hp2, _. }
  destruct t; try discriminate Hm; injection Hm as <-.
  - destruct Hnz as [Hh Hw].
    destruct (resize_coords_in_place cv2 h w new_h new_w interp0 x pts hp Hat Hh Hw)
      as (a & hp1 & _ & Hrun & [Hr _] & _).
    eapply Hwarp; [reflexivity|exact Hrun|exact Hr|].
    apply list_fmap_ext. intros _ [px py] _. unfold dot. cbn [zip_with foldl fst snd].
    simpl. rewrite ?H0, ?H1. f_equal; ring.
  - destruct (crop_coords_in_place cv2 y0 x0 h w x pts hp Hat)
      as (a & hp1 & _ & Hrun & [Hr _] & _).
    eapply Hwarp; [reflexivity|exact Hrun|exact Hr|].
    apply list_fmap_ext. intros _ [px py] _. unfold dot. cbn [zip_with foldl fst snd].
    simpl. rewrite ?Hopp, ?H0, ?H1. f_equal; ring.
  - destruct (flip_coords_in_place cv2 h w horiz x pts hp Hat)
      as (a & hp1 & _ & Hrun & [Hr _] & _).
    destruct horiz.
    + eapply Hwarp; [reflexivity|exact Hrun|exact Hr|].
      apply list_fmap_ext. intros _ [px py] _. unfold dot.
      cbn [zip_with foldl fst snd]. simpl. rewrite ?Hm1, ?H0, ?H1. f_equal; ring.
    + eapply Hwarp; [reflexivity|exact Hrun|exact Hr|].
      apply list_fmap_ext. intros _ [px py] _. unfold dot.
      cbn [zip_with foldl fst snd]. simpl. rewrite ?Hm1, ?H0, ?H1. f_equal; ring.
  - destruct (transpose_coords_run cv2 x pts hp Hat)
      as (a & v & n & s0 & s1 & _ & _ & _ & _ & Hrun & [Hr _]).
    eapply Hwarp; [reflexivity|exact Hrun|exact Hr|].
    apply list_fmap_ext. intros _ [px py] _. unfold dot. cbn [zip_with foldl fst snd].
    simpl. rewrite ?H0, ?H1. f_equal; ring.
Qed.

End exact_laws.

(** ** Images seen through a view *)

Section image_views.
Context {F : Type} `{!Arith F}.
Variable cv2 : cv2_kernels F.

Local Abbreviation M := (M F).
Local Abbreviation heap := (heap F).
Local Abbreviation transform := (transform F).

Lemma reverse_axis1_twice (a v : ndarray) :
  length (nd_strides a) = length (nd_shape a) →
  reverse_axis1 a = Some v → reverse_axis1 v = Some a.
Proof.
  destruct a as [buf off shape strides]. unfold reverse_axis1. simpl.
  destruct shape as [|n0 [|n1 sh]], strides as [|s0 [|s1 st]]; try done.
  intros _ [= <-]. simpl. f_equal. f_equal; [lia|]. f_equal. f_equal. lia.
Qed.

Lemma reverse_axis0_twice (a v : ndarray) :
  length (nd_strides a) = length (nd_shape a) →
  reverse_axis0 a = Some v → reverse_axis0 v = Some a.
Proof.
  destruct a as [buf off shape strides]. unfold reverse_axis0. simpl.
  destruct shape as [|n0 sh], strides as [|s0 st]; try done.
  intros _ [= <-]. simpl. f_equal. f_equal; [lia|]. f_equal. lia.
Qed.

(** apply_image of a Flip transform copies nothing: it returns a new array
    object over the buffer of the image, of the same shape, in which the
    pixel (i, j) is the pixel (i, W - 1 - j) of the image for a horizontal
    flip and the pixel (H - 1 - i, j) for a vertical one. *)
Theorem flip_apply_image_reverses_an_axis (h w : Z) (horiz : bool) (img : loc)
    (a : ndarray) (n0 n1 : nat) (sh : list nat) (hp : heap) :
  array_at hp img a →
  nd_shape a = n0 :: n1 :: sh →
  ∃ ret v,
    invoke cv2 (FlipTransform h w horiz) "apply_image" img hp =
      (Return ret, Heap (<[ret:=PyArray v]> (h_objs hp)) (h_bufs hp)) ∧
    h_objs hp !! ret = None ∧
    nd_buf v = nd_buf a ∧ nd_shape v = nd_shape a ∧
    ∀ i j, (i < n0)%nat → (j < n1)%nat →
      block_offset v i j =
        if horiz then block_offset a i (n1 - 1 - j) else block_offset a (n0 - 1 - i) j.
Proof.
  intros [Ha Hst] Hsh.
  destruct a as [buf off shape strides]. simpl in *. subst shape.
  destruct strides as [|s0 [|s1 st]]; simplify_eq/=.
  destruct horiz.
  - eexists _, _. split.
    { unfold invoke. simpl. unfold FlipTransform_apply_image. run_array Ha.
      reflexivity. }
    split; [apply not_elem_of_dom, is_fresh|]. simpl.
    split; [done|]. split; [done|].
    intros i j Hi Hj. unfold block_offset. simpl. f_equal.
    replace (Z.of_nat (n1 - 1 - j)) with (Z.of_nat n1 - 1 - Z.of_nat j) by lia.
    rewrite Z.max_r by lia. ring.
  - eexists _, _. split.
    { unfold invoke. simpl. unfold FlipTransform_apply_image. run_array Ha.
      reflexivity. }
    split; [apply not_elem_of_dom, is_fresh|]. simpl.
    split; [done|]. split; [done|].
    intros i j Hi Hj. unfold block_offset. simpl. f_equal.
    replace (Z.of_nat (n0 - 1 - i)) with (Z.of_nat n0 - 1 - Z.of_nat i) by lia.
    rewrite Z.max_r by lia. ring.
Qed.

(** Flipping an image twice, with the same transform, gives an array
    object that is a view of the image itself: the same buffer, offset,
    shape and strides. *)
Theorem flip_apply_image_twice (h w : Z) (horiz : bool) (img : loc) (a : ndarray)
    (n0 n1 : nat) (sh : list nat) (hp : heap) :
  array_at hp img a →
  nd_shape a = n0 :: n1 :: sh →
  ∃ ret hp1,
    (r ← invoke cv2 (FlipTransform h w horiz) "apply_image" img;
     invoke cv2 (FlipTransform h w horiz) "apply_image" r) hp = (Return ret, hp1) ∧
    h_objs hp1 !! ret = Some (PyArray a) ∧
    h_objs hp !! ret = None ∧
    h_bufs hp1 = h_bufs hp.
Proof.
  intros [Ha Hst] Hsh.
  assert (∃ v, (if horiz then reverse_axis1 a else reverse_axis0 a) = Some v ∧
               (if horiz then reverse_axis1 v else reverse_axis0 v) = Some a)
    as (v & Hv & Hback).
  { destruct horiz.
    - destruct (reverse_axis1 a) as [v|] eqn:Hv.
      + exists v. split; [done|]. by apply reverse_axis1_twice.
      + unfold reverse_axis1 in Hv. rewrite Hsh in Hv, Hst.
        destruct (nd_strides a) as [|? [|? ?]]; simplify_eq/=.
    - destruct (reverse_axis0 a) as [v|] eqn:Hv.
      + exists v. split; [done|]. by apply reverse_axis0_twice.
      + unfold reverse_axis0 in Hv. rewrite Hsh in Hv, Hst.
        destruct (nd_strides a) as [|? ?]; simplify_eq/=. }
  set (r := fresh (dom (h_objs hp))).
  set (hp1 := Heap (<[r:=PyArray v]> (h_objs hp)) (h_bufs hp)).
  assert (Hrun1 : invoke cv2 (FlipTransform h w horiz) "apply_image" img hp =
                  (Return r, hp1)).
  { unfold invoke. simpl. unfold FlipTransform_apply_image.
    run_array Ha. rewrite Hv. reflexivity. }
  assert (Hrun2 : invoke cv2 (FlipTransform h w horiz) "apply_image" r hp1 =
                  (Return (fresh (dom (h_objs hp1))),
                   Heap (<[fresh (dom (h_objs hp1)):=PyArray a]> (h_objs hp1))
                        (h_bufs hp1))).
  { unfold invoke. simpl. unfold FlipTransform_apply_image.
    erewrite bind_return by (apply get_array_eq; simpl; apply lookup_insert_eq).
    rewrite Hback. reflexivity. }
  eexists _, _. split.
  { erewrite bind_return by exact Hrun1. exact Hrun2. }
  simpl.
  split; [apply lookup_insert_eq|]. split; [|done].
  apply not_elem_of_dom. intros Hin.
  apply (is_fresh (dom (<[r:=PyArray v]> (h_objs hp)))).
  by apply (dom_insert_subseteq (h_objs hp) r (PyArray v)).
Qed.

(** *** The region a crop selects *)

Lemma sublist_bind {A B} (f : A → list B) (l1 l2 : list A) :
  l1 `sublist_of` l2 → l1 ≫= f `sublist_of` l2 ≫= f.
Proof.
  induction 1; csimpl.
  - constructor.
  - by apply sublist_app.
  - by apply sublist_inserts_l.
Qed.

Lemma seq_sublist (k len n : nat) :
  (k + len ≤ n)%nat → seq k len `sublist_of` seq 0 n.
Proof.
  intros Hle. replace n with (k + (len + (n - k - len)))%nat by lia.
  rewrite seq_app. apply sublist_inserts_l. simpl.
  rewrite seq_app. apply sublist_inserts_r. reflexivity.
Qed.

Lemma seq_bind_shift {B} (f : nat → list B) (k len : nat) : ∀ i0,
  seq i0 len ≫= (λ i, f (k + i)%nat) = seq (k + i0) len ≫= f.
Proof.
  induction len as [|len IH]; intros i0; csimpl; [done|].
  f_equal. rewrite IH. by rewrite Nat.add_succ_r.
Qed.

Lemma clamp_index_bounds (n : nat) (i : Z) : 0 ≤ clamp_index n i ≤ Z.of_nat n.
Proof. unfold clamp_index. case_decide; lia. Qed.

(** The cells of a slice are cells of the array, in the same order. *)
Lemma slice2_sublist (a v : ndarray) (y0 y1 x0 x1 : Z) :
  slice2 a y0 y1 x0 x1 = Some v →
  view_positions v `sublist_of` view_positions a.
Proof.
  unfold slice2, view_positions.
  destruct (nd_shape a) as [|n0 [|n1 sh]], (nd_strides a) as [|s0 [|s1 st]];
    try done.
  intros [= <-]. simpl. unfold slice_start, slice_length.
  pose proof (clamp_index_bounds n0 y0) as Hy0.
  pose proof (clamp_index_bounds n0 y1) as Hy1.
  pose proof (clamp_index_bounds n1 x0) as Hx0.
  pose proof (clamp_index_bounds n1 x1) as Hx1.
  set (k0 := Z.to_nat (clamp_index n0 y0)).
  set (k1 := Z.to_nat (clamp_index n1 x0)).
  set (G := λ i : nat, seq 0 n1 ≫= λ j : nat,
              positions (nd_offset a + Z.of_nat i * s0 + Z.of_nat j * s1) sh st).
  transitivity (seq 0 (Z.to_nat (clamp_index n0 y1 - clamp_index n0 y0)) ≫=
                  λ i, G (k0 + i)%nat).
  - apply bind_sublist. intros i _.
    set (P := λ j : nat,
                positions (nd_offset a + Z.of_nat (k0 + i) * s0 + Z.of_nat j * s1) sh st).
    transitivity (seq 0 (Z.to_nat (clamp_index n1 x1 - clamp_index n1 x0)) ≫=
                    λ j, P (k1 + j)%nat).
    + apply bind_sublist. intros j _. unfold P.
      replace (nd_offset a + clamp_index n0 y0 * s0 + clamp_index n1 x0 * s1 +
               Z.of_nat i * s0 + Z.of_nat j * s1)
        with (nd_offset a + Z.of_nat (k0 + i) * s0 + Z.of_nat (k1 + j) * s1)
        by (subst k0 k1; rewrite !Nat2Z.inj_add, !Z2Nat.id by lia; ring).
      reflexivity.
    + rewrite seq_bind_shift. apply sublist_bind, seq_sublist. lia.
  - rewrite seq_bind_shift. apply sublist_bind, seq_sublist. lia.
Qed.

(** What apply_image of a Crop transform selects.  The view it returns
    reaches cells of the image only, whatever the region, and keeps their
    order; for a region within the image, the pixel (i, j) of the result is
    the pixel (y0 + i, x0 + j) of the image. *)
Theorem crop_apply_image_selects_region (y0 x0 h w : Z) (img : loc) (a : ndarray)
    (n0 n1 : nat) (sh : list nat) (hp : heap) :
  array_at hp img a →
  nd_shape a = n0 :: n1 :: sh →
  ∃ ret v hp1,
    invoke cv2 (CropTransform y0 x0 h w) "apply_image" img hp = (Return ret, hp1) ∧
    h_objs hp1 !! ret = Some (PyArray v) ∧
    view_positions v `sublist_of` view_positions a ∧
    (NoDup (view_positions a) → NoDup (view_positions v)) ∧
    (region_within y0 x0 h w (nd_shape a) →
       ∀ i j, block_offset v i j =
              block_offset a (Z.to_nat y0 + i) (Z.to_nat x0 + j)).
Proof.
  intros [Ha Hst] Hsh.
  destruct (slice2 a y0 (y0 + h) x0 (x0 + w)) as [v|] eqn:Hv; last first.
  { unfold slice2 in Hv. rewrite Hsh in Hv, Hst.
    destruct (nd_strides a) as [|? [|? ?]]; simplify_eq/=. }
  pose proof (slice2_sublist _ _ _ _ _ _ Hv) as Hsub.
  eexists _, v, _. split.
  { unfold invoke. simpl. unfold CropTransform_apply_image.
    run_array Ha. rewrite Hv. reflexivity. }
  simpl. split; [apply lookup_insert_eq|]. split; [exact Hsub|].
  split; [intros Hnd; by eapply sublist_NoDup|].
  rewrite Hsh. intros (Hy & Hh & Hyh & Hx & Hw & Hxw) i j.
  unfold slice2 in Hv. rewrite Hsh in Hv.
  destruct (nd_strides a) as [|s0 [|s1 st]] eqn:Hstr; simplify_eq/=.
  unfold block_offset. simpl. rewrite Hstr. f_equal.
  unfold slice_start, clamp_index.
  rewrite !decide_False by lia. rewrite !Nat2Z.inj_add, !Z2Nat.id by lia.
  rewrite !Z.max_r, !Z.min_r by lia. ring.
Qed.

End image_views.

(** ** Calls that only allocate *)

Section frame.
Context {F : Type} `{!Arith F}.
Variable cv2 : cv2_kernels F.

Local Abbreviation M := (M F).
Local Abbreviation heap := (heap F).
Local Abbreviation transform := (transform F).

(** Induction on a transform, with the property known of the children of a
    composite. *)
Lemma transform_nested_ind (P : transform → Prop) :
  (∀ t, is_composite t = false → P t) →
  (∀ tfms, Forall P tfms → P (TransformList tfms)) →
  ∀ t, P t.
Proof.
  intros Hother Hlist.
  exact (fix go (t : transform) : P t :=
           match t with
           | TransformList tfms =>
               Hlist tfms
                 ((fix all (l : list transform) : Forall P l :=
                     match l with
                     | [] => @List.Forall_nil _ P
                     | c :: r => @List.Forall_cons _ P c r (go c) (all r)
                     end) tfms)
           | Transform => Hother Transform eq_refl
           | NoOpTransform => Hother NoOpTransform eq_refl
           | ResizeTransform h w new_h new_w interp =>
               Hother (ResizeTransform h w new_h new_w interp) eq_refl
           | CropTransform y0 x0 h w => Hother (CropTransform y0 x0 h w) eq_refl
           | WarpAffineTransform mat dsize interp borderMode borderValue =>
               Hother (WarpAffineTransform mat dsize interp borderMode borderValue)
                      eq_refl
           | FlipTransform h w horiz => Hother (FlipTransform h w horiz) eq_refl
           | TransposeTransform => Hother TransposeTransform eq_refl
           | TransformFactory name kwargs =>
               Hother (TransformFactory name kwargs) eq_refl
           end).
Qed.

Lemma extends_refl (hp : heap) : extends hp hp.
Proof. by split. Qed.

Lemma extends_trans (hp hp1 hp2 : heap) :
  extends hp hp1 → extends hp1 hp2 → extends hp hp2.
Proof. intros [? ?] [? ?]. split; by etrans. Qed.

Lemma preserves_ret {A} (a : A) : preserves_heap (F:=F) (mret a).
Proof. intros hp o hp1 [= _ <-]. apply extends_refl. Qed.

Lemma preserves_raise {A} (e : exn) : preserves_heap (F:=F) (raise (A:=A) e).
Proof. intros hp o hp1 [= _ <-]. apply extends_refl. Qed.

Lemma preserves_bind {A B} (m : M A) (f : A → M B) :
  preserves_heap m → (∀ a, preserves_heap (f a)) → preserves_heap (m ≫= f).
Proof.
  intros Hm Hf hp o hp2. unfold mbind, M_bind.
  destruct (m hp) as [[e|a] hp1] eqn:Hrun.
  - intros [= _ <-]. by eapply Hm.
  - intros Hrun2. eapply extends_trans; [by eapply Hm | by eapply Hf].
Qed.

Lemma preserves_lift {A} (e : exn) (o : option A) : preserves_heap (F:=F) (lift e o).
Proof. destruct o; [apply preserves_ret | apply preserves_raise]. Qed.

Lemma preserves_get_array (e : exn) (x : loc) : preserves_heap (F:=F) (get_array e x).
Proof.
  intros hp o hp1. unfold get_array.
  destruct (h_objs hp !! x) as [[?|?]|]; intros [= _ <-]; apply extends_refl.
Qed.

Lemma preserves_new_object (obj : pyobj) : preserves_heap (F:=F) (new_object obj).
Proof.
  intros hp o hp1 [= _ <-]. split; simpl; [|done].
  apply insert_subseteq, not_elem_of_dom, is_fresh.
Qed.

Lemma preserves_new_buffer (d : list F) : preserves_heap (new_buffer d).
Proof.
  intros hp o hp1 [= _ <-]. split; simpl; [done|].
  apply insert_subseteq, not_elem_of_dom, is_fresh.
Qed.

Lemma preserves_read_view (a : ndarray) : preserves_heap (F:=F) (read_view a).
Proof.
  intros hp o hp1 Hr. rewrite (read_view_heap _ _ _ _ Hr). apply extends_refl.
Qed.

#[local] Hint Resolve preserves_ret preserves_raise preserves_lift
  preserves_get_array preserves_new_object preserves_new_buffer
  preserves_read_view : core.
#[local] Hint Extern 2 (preserves_heap (_ ≫= _)) =>
  apply preserves_bind; [|intros ?] : core.

Lemma preserves_read_tensor (a : ndarray) : preserves_heap (F:=F) (read_tensor a).
Proof. unfold read_tensor. auto. Qed.

Lemma preserves_cv2_result (r : option (tensor F)) : preserves_heap (cv2_result r).
Proof. destruct r; simpl; [unfold new_array|]; auto. Qed.

Lemma preserves_restore_channel (img : ndarray) (ret : loc) :
  preserves_heap (F:=F) (restore_channel img ret).
Proof. unfold restore_channel. apply preserves_bind; [auto|]. intros r. case_decide; auto. Qed.

#[local] Hint Resolve preserves_read_tensor preserves_cv2_result
  preserves_restore_channel : core.

Lemma preserves_inherited (cls : pyclass) (meth : string) (x : loc) :
  preserves_heap (F:=F) (call (inherited cls meth) x).
Proof.
  unfold inherited. repeat case_decide; simpl;
    unfold Transform_apply_image, Transform_apply_coords; auto.
Qed.

Lemma preserves_apply_loop (inv : transform → method) (tfms : list transform) :
  Forall (λ c, ∀ x, preserves_heap (inv c x)) tfms →
  ∀ x, preserves_heap (apply_loop inv tfms x).
Proof.
  induction 1 as [|c rest Hc _ IH]; intros x; simpl; [auto|].
  apply preserves_bind; [apply Hc | apply IH].
Qed.

Lemma allocating_call_preserves (t : transform) (meth : string) :
  allocates_only t meth = true → ∀ x, preserves_heap (invoke cv2 t meth x).
Proof.
  induction t as [t Ht|tfms IH] using transform_nested_ind; intros Hal x.
  - unfold invoke.
    destruct t; try done; simpl in *;
      try (apply bool_decide_eq_true in Hal);
      repeat case_decide; subst; simpl; try done;
      try apply (preserves_inherited _ meth);
      try (unfold no_attribute; apply preserves_raise);
      auto.
    + destruct (String.prefix "apply_" meth); simpl; auto.
    + unfold ResizeTransform_apply_image. apply preserves_bind; [auto|].
      intros a. case_decide; auto.
    + unfold CropTransform_apply_image. auto.
    + unfold WarpAffineTransform_apply_image. auto.
    + unfold WarpAffineTransform_apply_coords. apply preserves_bind; [auto|].
      intros a. destruct (nd_shape a) as [|n [|k [|? ?]]]; auto.
      unfold new_array. auto 6.
    + unfold FlipTransform_apply_image. auto.
    + unfold TransposeTransform_apply_image. auto.
    + unfold TransposeTransform_apply_coords. auto.
  - simpl in Hal. rewrite forallb_forall in Hal.
    assert (Hloop : ∀ y, preserves_heap
              (apply_loop (λ c, call (getattr cv2 c meth)) tfms y)).
    { apply preserves_apply_loop. rewrite Forall_forall in *.
      intros c Hc. apply (IH c Hc). by apply Hal, list_elem_of_In. }
    unfold invoke. simpl. repeat case_decide; subst; simpl; auto.
    destruct (String.prefix "apply_" meth); simpl; auto.
Qed.

(** A call that only allocates leaves what the heap held as it was: every
    object and every buffer of the heap before the call is in the heap after
    it, unchanged, whether the call returns or raises, and every view
    reads the samples it read before.  In particular apply_image, also
    through a composite of geometric transforms, never stores into the
    image it is given. *)
Theorem allocating_calls_keep_the_heap (t : transform) (meth : string) (x : loc)
    (hp hp1 : heap) (o : outcome loc) :
  allocates_only t meth = true →
  invoke cv2 t meth x hp = (o, hp1) →
  h_objs hp ⊆ h_objs hp1 ∧ h_bufs hp ⊆ h_bufs hp1 ∧
  ∀ a vs, read_view a hp = (Return vs, hp) → read_view a hp1 = (Return vs, hp1).
Proof.
  intros Hal Hrun.
  destruct (allocating_call_preserves t meth Hal x hp o hp1 Hrun) as [Hobjs Hbufs].
  split; [done|]. split; [done|].
  intros a vs. unfold read_view.
  destruct (h_bufs hp !! nd_buf a) as [b|] eqn:Hb; simpl; [|done].
  rewrite (lookup_weaken _ _ _ _ Hb Hbufs). simpl.
  destruct (gather b (view_positions a)); [|done]. by intros [= ->].
Qed.

End frame.

(** ** Construction and printing *)

Section construction_laws.
Context {V : Type}.

Lemma Transform_init_lookup (attrs p : gmap string V) (k : string) :
  Transform_init attrs (Some p) !! k =
    match p !! k with
    | Some v => if kept_by_init k then Some v else attrs !! k
    | None => attrs !! k
    end.
Proof.
  unfold Transform_init. case_decide as Hsize.
  { apply map_size_empty_inv in Hsize as ->. by rewrite lookup_empty. }
  clear Hsize. revert k.
  apply (map_fold_weak_ind (λ r m, ∀ k, r !! k =
           match m !! k with
           | Some v => if kept_by_init k then Some v else attrs !! k
           | None => attrs !! k
           end)).
  - intros k. by rewrite lookup_empty.
  - intros i x m r Hi IH k. destruct (decide (k = i)) as [->|Hne].
    + rewrite lookup_insert_eq. destruct (kept_by_init i).
      * by rewrite lookup_insert_eq.
      * by rewrite IH, Hi.
    + rewrite lookup_insert_ne by done. destruct (kept_by_init i).
      * rewrite lookup_insert_ne by done. apply IH.
      * apply IH.
Qed.

(** [_init] stores the parameters whose name is not [self] and does not
    start with an underscore, over the attributes of the same name, and
    keeps every other attribute; without parameters nothing changes. *)
Theorem init_stores_public_parameters (attrs p : gmap string V) :
  Transform_init attrs (Some p) = filter (λ kv, kept_by_init kv.1 = true) p ∪ attrs ∧
  Transform_init attrs None = attrs ∧
  Transform_init attrs (Some ∅) = attrs.
Proof.
  split; [|split; [reflexivity|]].
  - apply map_eq. intros k. rewrite Transform_init_lookup, lookup_union.
    rewrite map_lookup_filter. destruct (p !! k) as [v|]; simpl.
    + destruct (kept_by_init k) eqn:Hk.
      * rewrite option_guard_True by done. simpl. by destruct (attrs !! k).
      * rewrite option_guard_False by (simpl; congruence). simpl.
        by destruct (attrs !! k).
    + by destruct (attrs !! k).
  - apply map_eq. intros k. by rewrite Transform_init_lookup, lookup_empty.
Qed.


End construction_laws.

Section construction_of_transforms_laws.
Context {F : Type} `{!Arith F}.

Local Abbreviation transform := (transform F).
Local Abbreviation pyvalue := (pyvalue (F:=F)).

Lemma assert_transforms_passes (tfms : list pyvalue) :
  assert_transforms tfms = Return () ↔ Forall (λ v, is_transform v = true) tfms.
Proof.
  induction tfms as [|v rest IH]; simpl.
  - split; [constructor|done].
  - rewrite Forall_cons. destruct (is_transform v).
    + rewrite IH. tauto.
    + split; [done|]. by intros [? _].
Qed.

Lemma assert_transforms_outcome (tfms : list pyvalue) :
  assert_transforms tfms = Return () ∨ assert_transforms tfms = Raise AssertionError.
Proof.
  induction tfms as [|v rest IH]; simpl; [by left|].
  destruct (is_transform v); [exact IH | by right].
Qed.

Lemma all_transforms (tfms : list pyvalue) :
  Forall (λ v, is_transform v = true) tfms →
  tfms = VTransform <$> omap as_transform tfms.
Proof.
  induction 1 as [|v rest Hv _ IH]; [done|].
  destruct v as [t|o]; [|done]. csimpl. by rewrite <- IH.
Qed.

(** The constructor of a composite accepts a list exactly when every
    element is a transform, and the composite then has the elements of the
    list as its children, in the order of the list.  Otherwise it fails on
    its assertion. *)
Theorem composite_constructor_checks_children (tfms : list pyvalue) :
  (∀ t, TransformList_init tfms = Return t ↔
        ∃ ts, tfms = VTransform <$> ts ∧ t = TransformList ts) ∧
  (TransformList_init tfms = Raise AssertionError ↔
     ∃ v, v ∈ tfms ∧ is_transform v = false) ∧
  (∀ e, TransformList_init tfms = Raise e → e = AssertionError).
Proof.
  unfold TransformList_init.
  pose proof (assert_transforms_passes tfms) as Hpass.
  destruct (assert_transforms_outcome tfms) as [Hok|Hfail]; rewrite ?Hok, ?Hfail.
  - pose proof (proj1 Hpass Hok) as Hall. split; [|split].
    + intros t. split.
      * intros [= <-]. eexists. split; [by apply all_transforms | done].
      * intros (ts & -> & ->). f_equal. f_equal.
        clear. induction ts as [|t ts IH]; [done|]. csimpl. by rewrite IH.
    + split; [done|]. intros (v & Hv & Hnot).
      rewrite Forall_forall in Hall. specialize (Hall v Hv). congruence.
    + done.
  - assert (Hnot : ¬ Forall (λ v, is_transform v = true) tfms).
    { intros Hall. apply Hpass in Hall. congruence. }
    split; [|split].
    + intros t. split; [done|]. intros (ts & -> & _). exfalso. apply Hnot.
      apply Forall_fmap, Forall_true. done.
    + split; [|done]. intros _.
      apply not_Forall_Exists in Hnot; [|intros v; apply _].
      apply Exists_exists in Hnot as (v & Hv & Hvn). exists v. split; [done|].
      simpl in Hvn. by destruct (is_transform v).
    + by intros e [= <-].
Qed.

Lemma closed_nonempty (s : string) : s +:+ ")" ≠ "".
Proof. by destruct s. Qed.

Lemma closed_inj (s1 s2 : string) : s1 +:+ ")" = s2 +:+ ")" → s1 = s2.
Proof.
  revert s2. induction s1 as [|a s1 IH]; intros [|b s2]; simpl; try done.
  - intros [= _ H]. symmetry in H. by apply closed_nonempty in H.
  - intros [= _ H]. by apply closed_nonempty in H.
  - intros [= -> H]. f_equal. by apply IH.
Qed.

(** Two transforms made by TransformFactory print alike exactly when they
    have the same name, a name that is empty counting as no name: the
    callables do not show. *)
Theorem factory_str_shows_the_name (n1 n2 : option string)
    (k1 k2 : gmap string (method (F:=F))) :
  str_of (TransformFactory n1 k1) = str_of (TransformFactory n2 k2) ↔
  default "" n1 = default "" n2.
Proof.
  simpl. unfold TransformFactory_str.
  destruct n1 as [s1|], n2 as [s2|]; simpl; repeat case_decide; subst; simpl;
    try (split; [done|]; done);
    (split; [intros [= Heq] | intros Hs; by simplify_eq]).
  - by apply (closed_inj "" s2).
  - by apply (closed_inj s1 "").
  - by apply closed_inj.
  - by apply (closed_inj s1 "").
  - by apply (closed_inj "" s2).
Qed.

End construction_of_transforms_laws.

(** ** Runs on concrete inputs *)

Lemma composite_applies_children_in_order_witness :
  invoke reference_kernels
    (TransformList [ResizeTransform 100 100 50 50 1; NoOpTransform; CropTransform 1 2 3 4])
    "apply_coords" 1%positive (two_points (F:=float))
  = apply_in_order reference_kernels
    [ResizeTransform 100 100 50 50 1; NoOpTransform; CropTransform 1 2 3 4]
    "apply_coords" 1%positive two_points.
Proof. apply composite_applies_children_in_order. reflexivity. Defined.

Lemma empty_composite_is_identity_witness :
  invoke reference_kernels (TransformList []) "apply_boxes" 1%positive (two_points (F:=float))
  = (Return 1%positive, two_points).
Proof. apply empty_composite_is_identity. reflexivity. Defined.

Lemma noop_returns_its_argument_witness :
  invoke reference_kernels NoOpTransform "apply_segmentation" 1%positive (two_points (F:=float))
  = (Return 1%positive, two_points).
Proof.
  apply (noop_returns_its_argument reference_kernels 1%positive two_points).
  reflexivity.
Defined.

Lemma resize_asserts_declared_shape_witness :
  let a := NdArray 1%positive 0 [2%nat; 2%nat; 1%nat] [2; 1; 1] in
  let run :=
    invoke reference_kernels (ResizeTransform 3 2 4 4 1) "apply_image" 1%positive
      (small_image (F:=float)) in
  (run = (Raise AssertionError, small_image) ↔ Z.of_nat <$> take 2 (nd_shape a) ≠ [3; 2]) ∧
  (Z.of_nat <$> take 2 (nd_shape a) = [3; 2] → run.1 ≠ Raise AssertionError).
Proof.
  intros a.
  apply (resize_asserts_declared_shape reference_kernels 3 2 4 4 1 1%positive a small_image).
  reflexivity.
Defined.

Lemma geometric_apply_image_keeps_channel_axis_witness :
  ∃ ret r hp1,
    invoke reference_kernels (ResizeTransform 2 2 4 4 1) "apply_image" 1%positive
      (small_image (F:=float)) = (Return ret, hp1) ∧
    h_objs hp1 !! ret = Some (PyArray r) ∧ ndim r = 3%nat.
Proof.
  pose (a := NdArray 1%positive 0 [2%nat; 2%nat; 1%nat] [2; 1; 1]).
  pose (vs := of_int (F:=float) <$> [1; 2; 3; 4]).
  pose (kt := Tensor [4%nat; 4%nat]
                (of_int (F:=float) <$> [1; 1; 2; 2; 1; 1; 2; 2; 3; 3; 4; 4; 3; 3; 4; 4])).
  destruct (geometric_apply_image_keeps_channel_axis reference_kernels
              (ResizeTransform 2 2 4 4 1) (λ img, nearest_resize img (4, 4) 1)
              1%positive a small_image vs kt)
    as (ret & r & hp1 & Hrun & Hret & _ & _ & Hrule);
    [reflexivity | reflexivity | reflexivity | reflexivity | vm_compute; reflexivity |].
  exists ret, r, hp1. split; [exact Hrun|]. split; [exact Hret|].
  apply Hrule; [left; reflexivity | reflexivity].
Defined.

(** C6 as stated fails: the region [1:6, 1:6] leaves an image of 2 x 2
    pixels, and apply_image returns (a view on the pixel at (1, 1)). *)
Lemma crop_out_of_bounds_is_not_reported :
  ¬ crop_reports_out_of_bounds reference_kernels 1 1 5 5 1%positive (small_image (F:=float)).
Proof.
  intros Hclaim.
  specialize (Hclaim (NdArray 1%positive 0 [2%nat; 2%nat; 1%nat] [2; 1; 1])
                (conj eq_refl eq_refl)).
  assert (Hout : ¬ region_within 1 1 5 5 [2%nat; 2%nat; 1%nat]) by (simpl; lia).
  specialize (Hclaim Hout). vm_compute in Hclaim. discriminate Hclaim.
Qed.

Lemma crop_truncates_region_witness :
  ∃ ret v,
    invoke reference_kernels (CropTransform 1 1 5 5) "apply_image" 1%positive
      (small_image (F:=float)) =
      (Return ret, Heap (<[ret:=PyArray v]> (h_objs small_image)) (h_bufs small_image)) ∧
    nd_shape v = [1%nat; 1%nat; 1%nat].
Proof.
  destruct (crop_truncates_region reference_kernels 1 1 5 5 1%positive
              (NdArray 1%positive 0 [2%nat; 2%nat; 1%nat] [2; 1; 1])
              small_image 2 2 [1%nat])
    as (ret & v & Hrun & _ & _ & _ & _ & Hshape & _);
    [split; reflexivity | reflexivity |].
  exists ret, v. split; [exact Hrun | exact Hshape].
Defined.

Lemma two_points_coords :
  coords_at (two_points (F:=Qc)) 1%positive
    [(of_int 50, of_int 50); (of_int 0, of_int 0)].
Proof.
  split; [reflexivity|].
  exists (NdArray 1%positive 0 [2%nat; 2%nat] [2; 1]). split; [reflexivity|].
  apply (bool_decide_unpack (NoDup _)). vm_compute. reflexivity.
Qed.

Lemma resize_apply_coords_scales_points_witness :
  ∃ hp1,
    invoke reference_kernels (ResizeTransform 100 100 50 50 1) "apply_coords"
      1%positive (two_points (F:=Qc)) = (Return 1%positive, hp1) ∧
    read_coords 1%positive hp1 =
      Some ((λ pt, (f_mul pt.1 (f_div (of_int 50) (of_int 100)),
                    f_mul pt.2 (f_div (of_int 50) (of_int 100)))) <$>
            [(of_int 50, of_int 50); (of_int 0, of_int 0)]).
Proof.
  apply (proj1 resize_apply_coords_scales_points Qc exact_arith reference_kernels
           100 100 50 50 1 1%positive _ two_points mul_one_exact).
  - lia.
  - lia.
  - exact two_points_coords.
Defined.

Lemma resize_round_trip_restores_coords_witness :
  ∃ hp1,
    (x1 ← invoke reference_kernels (ResizeTransform 100 100 50 50 1) "apply_coords" 1%positive;
     invoke reference_kernels (ResizeTransform 50 50 100 100 1) "apply_coords" x1)
      (two_points (F:=Qc)) = (Return 1%positive, hp1) ∧
    read_coords 1%positive hp1 = Some [(of_int 50, of_int 50); (of_int 0, of_int 0)] ∧
    hp1 = two_points.
Proof.
  apply (proj1 resize_round_trip_restores_coords reference_kernels 100 100 50 50 1
           1%positive _ two_points); try lia.
  exact two_points_coords.
Defined.

Lemma warp_affine_apply_coords_is_affine_map_witness :
  ∃ ret hp1,
    invoke reference_kernels
      (WarpAffineTransform
         [[of_int 0; of_int (-1); of_int 5]; [of_int 1; of_int 0; of_int 7]]
         (2, 2) 1 0 (of_int 0))
      "apply_coords" 1%positive (two_points (F:=Qc)) = (Return ret, hp1) ∧
    read_coords ret hp1 =
      Some ((λ pt,
               (f_add (f_add (f_mul pt.1 (of_int 0)) (f_mul pt.2 (of_int (-1))))
                  (f_mul f_one (of_int 5)),
                f_add (f_add (f_mul pt.1 (of_int 1)) (f_mul pt.2 (of_int 0)))
                  (f_mul f_one (of_int 7))))
            <$> [(of_int 50, of_int 50); (of_int 0, of_int 0)]).
Proof.
  apply (proj1 warp_affine_apply_coords_is_affine_map Qc exact_arith reference_kernels
           (of_int 0) (of_int (-1)) (of_int 5) (of_int 1) (of_int 0) (of_int 7)
           (2, 2) 1 0 (of_int 0) 1%positive _ two_points).
  reflexivity.
Defined.

(** C2 as stated fails: in the composite of a Resize transform and a
    transform made from a function on images only, apply_coords fails at
    the second child, when the first has scaled the coordinates in place. *)
Lemma composite_applies_children_before_failing :
  ¬ checks_capability_first reference_kernels
      [ResizeTransform 100 100 50 50 1; image_only] "apply_coords" 1%positive
      (two_points (F:=float)).
Proof.
  intros Hclaim.
  destruct (Hclaim image_only) as (c & _ & _ & Hrun);
    [right; left | reflexivity |].
  apply (f_equal (λ r, match read_coords 1%positive r.2 with
                       | Some ((v, _) :: _) => PrimFloat.eqb v 50
                       | _ => false
                       end)) in Hrun.
  vm_compute in Hrun. discriminate Hrun.
Qed.

Lemma composite_fails_at_unsupported_child_witness :
  invoke reference_kernels (TransformList [ResizeTransform 100 100 50 50 1; image_only])
    "apply_coords" 1%positive (two_points (F:=float)) =
  (Raise (NotImplementedError None),
   (invoke reference_kernels (ResizeTransform 100 100 50 50 1) "apply_coords"
      1%positive two_points).2).
Proof.
  apply (composite_fails_at_unsupported_child reference_kernels
           [ResizeTransform 100 100 50 50 1] [] image_only "apply_coords"
           1%positive 1%positive two_points); reflexivity.
Defined.

(** The other transforms on the points of the specification. *)

Example crop_coords_example :
  let run := invoke reference_kernels (CropTransform 10 20 30 40) "apply_coords"
               1%positive (one_point (F:=float) 25 15) in
  run.1 = Return 1%positive ∧ read_coords 1%positive run.2 = Some [(5, 5)]%float.
Proof. split; vm_compute; reflexivity. Qed.

Example flip_coords_example :
  let run := invoke reference_kernels (FlipTransform 100 100 true) "apply_coords"
               1%positive (one_point (F:=float) 10 20) in
  run.1 = Return 1%positive ∧ read_coords 1%positive run.2 = Some [(90, 20)]%float.
Proof. split; vm_compute; reflexivity. Qed.

Example transpose_coords_example :
  let run := invoke reference_kernels TransposeTransform "apply_coords"
               1%positive (one_point (F:=float) 10 20) in
  run.1 = Return 2%positive ∧
  read_coords 2%positive run.2 = Some [(20, 10)]%float ∧
  read_coords 1%positive run.2 = Some [(10, 20)]%float.
Proof. repeat split; vm_compute; reflexivity. Qed.

(** The further properties on concrete inputs *)

Lemma composite_identity_laws_witness :
  invoke reference_kernels
    (TransformList [ResizeTransform 100 100 50 50 1; NoOpTransform; CropTransform 1 2 3 4])
    "apply_coords" 1%positive (two_points (F:=float)) =
  invoke reference_kernels
    (TransformList [ResizeTransform 100 100 50 50 1; CropTransform 1 2 3 4])
    "apply_coords" 1%positive two_points ∧
  invoke reference_kernels (TransformList [FlipTransform 100 100 true])
    "apply_coords" 1%positive (two_points (F:=float)) =
  invoke reference_kernels (FlipTransform 100 100 true) "apply_coords" 1%positive two_points.
Proof.
  apply (composite_identity_laws reference_kernels
           [ResizeTransform 100 100 50 50 1] [CropTransform 1 2 3 4]
           (FlipTransform 100 100 true) "apply_coords" 1%positive two_points).
  reflexivity.
Defined.

Lemma composite_raises_what_child_raises_witness :
  invoke reference_kernels
    (TransformList [ResizeTransform 100 100 50 50 1; image_only; NoOpTransform])
    "apply_coords" 1%positive (two_points (F:=float)) =
  (Raise (NotImplementedError None),
   (invoke reference_kernels (ResizeTransform 100 100 50 50 1) "apply_coords"
      1%positive two_points).2).
Proof.
  apply (composite_raises_what_child_raises reference_kernels
           [ResizeTransform 100 100 50 50 1] [NoOpTransform] image_only "apply_coords"
           1%positive 1%positive two_points
           (invoke reference_kernels (ResizeTransform 100 100 50 50 1) "apply_coords"
              1%positive two_points).2);
    reflexivity.
Defined.

Lemma crop_apply_coords_subtracts_offset_witness :
  ∃ hp1,
    invoke reference_kernels (CropTransform 10 20 30 40) "apply_coords" 1%positive
      (two_points (F:=Qc)) = (Return 1%positive, hp1) ∧
    read_coords 1%positive hp1 =
      Some ((λ pt, (f_sub pt.1 (of_int 20), f_sub pt.2 (of_int 10))) <$>
            [(of_int 50, of_int 50); (of_int 0, of_int 0)]).
Proof.
  exact (crop_apply_coords_subtracts_offset reference_kernels 10 20 30 40 1%positive
           [(of_int 50, of_int 50); (of_int 0, of_int 0)] two_points two_points_coords).
Defined.

Lemma flip_apply_coords_reflects_witness :
  ∃ hp1,
    invoke reference_kernels (FlipTransform 100 80 true) "apply_coords" 1%positive
      (two_points (F:=Qc)) = (Return 1%positive, hp1) ∧
    read_coords 1%positive hp1 =
      Some ((λ pt, (f_sub (of_int 80) pt.1, pt.2)) <$>
            [(of_int 50, of_int 50); (of_int 0, of_int 0)]).
Proof.
  exact (flip_apply_coords_reflects reference_kernels 100 80 true 1%positive
           [(of_int 50, of_int 50); (of_int 0, of_int 0)] two_points two_points_coords).
Defined.

Lemma apply_coords_writes_only_the_array_witness :
  ∃ hp1,
    invoke reference_kernels (ResizeTransform 100 100 50 50 1) "apply_coords" 1%positive
      (two_points (F:=Qc)) = (Return 1%positive, hp1) ∧
    differs_within (NdArray 1%positive 0 [2%nat; 2%nat] [2; 1]) two_points hp1.
Proof.
  apply (apply_coords_writes_only_the_array reference_kernels
           (ResizeTransform 100 100 50 50 1) 1%positive (NdArray 1%positive 0 [2%nat; 2%nat] [2; 1])
           [(of_int 50, of_int 50); (of_int 0, of_int 0)] two_points).
  - split; lia.
  - exact two_points_coords.
  - reflexivity.
Defined.

Lemma resize_apply_coords_division_by_zero_witness :
  ∃ hp1,
    invoke reference_kernels (ResizeTransform 0 100 50 50 1) "apply_coords" 1%positive
      (two_points (F:=Qc)) = (Raise ZeroDivisionError, hp1) ∧
    read_coords 1%positive hp1 =
      Some ((λ pt, (f_mul pt.1 (f_div (f_mul (of_int 50) f_one) (of_int 100)), pt.2)) <$>
            [(of_int 50, of_int 50); (of_int 0, of_int 0)]).
Proof.
  apply (proj2 (resize_apply_coords_division_by_zero reference_kernels 0 100 50 50 1
                  1%positive
                  [(of_int 50, of_int 50); (of_int 0, of_int 0)] two_points
                  two_points_coords)).
  - lia.
  - reflexivity.
Defined.

Lemma transpose_apply_coords_swaps_in_a_view_witness :
  ∃ ret v hp1,
    invoke reference_kernels TransposeTransform "apply_coords" 1%positive
      (two_points (F:=Qc)) = (Return ret, hp1) ∧
    h_objs (two_points (F:=Qc)) !! ret = None ∧
    h_objs hp1 = <[ret:=PyArray v]> (h_objs (two_points (F:=Qc))) ∧
    h_bufs hp1 = h_bufs (two_points (F:=Qc)) ∧
    read_coords ret hp1 =
      Some (prod_swap <$> [(of_int 50, of_int 50); (of_int 0, of_int 0)]) ∧
    read_coords 1%positive hp1 = Some [(of_int 50, of_int 50); (of_int 0, of_int 0)].
Proof.
  exact (transpose_apply_coords_swaps_in_a_view reference_kernels 1%positive
           [(of_int 50, of_int 50); (of_int 0, of_int 0)] two_points two_points_coords).
Defined.

Lemma transpose_apply_coords_twice_witness :
  ∃ ret hp1,
    (x1 ← invoke reference_kernels TransposeTransform "apply_coords" 1%positive;
     invoke reference_kernels TransposeTransform "apply_coords" x1)
      (two_points (F:=Qc)) = (Return ret, hp1) ∧
    read_coords ret hp1 = Some [(of_int 50, of_int 50); (of_int 0, of_int 0)].
Proof.
  exact (transpose_apply_coords_twice reference_kernels 1%positive
           [(of_int 50, of_int 50); (of_int 0, of_int 0)] two_points two_points_coords).
Defined.

Lemma transpose_result_aliases_argument_witness :
  ∃ ret hp1,
    invoke reference_kernels TransposeTransform "apply_coords" 1%positive
      (two_points (F:=Qc)) = (Return ret, hp1) ∧
    ∀ hp2, h_objs hp2 = h_objs hp1 →
      read_coords ret hp2 =
        fmap (M:=list) (prod_swap (A:=Qc) (B:=Qc)) <$> read_coords 1%positive hp2.
Proof.
  exact (transpose_result_aliases_argument reference_kernels 1%positive
           [(of_int 50, of_int 50); (of_int 0, of_int 0)] two_points two_points_coords).
Defined.

Lemma flip_apply_coords_twice_witness :
  (x1 ← invoke reference_kernels (FlipTransform 100 80 true) "apply_coords" 1%positive;
   invoke reference_kernels (FlipTransform 100 80 true) "apply_coords" x1)
    (two_points (F:=Qc)) = (Return 1%positive, two_points).
Proof.
  exact (flip_apply_coords_twice reference_kernels 100 80 true 1%positive
           [(of_int 50, of_int 50); (of_int 0, of_int 0)] two_points two_points_coords).
Defined.

Lemma crop_apply_coords_adds_offsets_witness :
  (r ← invoke reference_kernels (CropTransform 10 20 30 40) "apply_coords" 1%positive;
   invoke reference_kernels (CropTransform 1 2 3 4) "apply_coords" r)
    (two_points (F:=Qc)) =
  invoke reference_kernels (CropTransform 11 22 3 4) "apply_coords" 1%positive two_points.
Proof.
  exact (proj1 (crop_apply_coords_adds_offsets reference_kernels 10 20 30 40 1 2 3 4 3 4
                  1%positive
                  [(of_int 50, of_int 50); (of_int 0, of_int 0)] two_points
                  two_points_coords)).
Defined.

Lemma resize_apply_coords_composes_witness :
  (r ← invoke reference_kernels (ResizeTransform 100 100 50 40 1) "apply_coords" 1%positive;
   invoke reference_kernels (ResizeTransform 50 40 30 20 1) "apply_coords" r)
    (two_points (F:=Qc)) =
  invoke reference_kernels (ResizeTransform 100 100 30 20 1) "apply_coords"
    1%positive two_points.
Proof.
  apply (resize_apply_coords_composes reference_kernels 100 100 50 40 30 20 1 1 1
           1%positive [(of_int 50, of_int 50); (of_int 0, of_int 0)] two_points); try lia.
  exact two_points_coords.
Defined.

Lemma warp_affine_apply_coords_composes_witness :
  let M := [[of_int 0; of_int (-1); of_int 5]; [of_int 1; of_int 0; of_int 7]] in
  let N := [[of_int 2; of_int 0; of_int 1]; [of_int 0; of_int 3; of_int 0]] in
  ∃ r2 hp2 r3 hp3 q,
    (r ← invoke reference_kernels (WarpAffineTransform M (2, 2) 1 0 (of_int 0))
           "apply_coords" 1%positive;
     invoke reference_kernels (WarpAffineTransform N (2, 2) 1 0 (of_int 0))
       "apply_coords" r) (two_points (F:=Qc)) = (Return r2, hp2) ∧
    invoke reference_kernels
      (WarpAffineTransform (affine_product N M) (2, 2) 1 0 (of_int 0))
      "apply_coords" 1%positive (two_points (F:=Qc)) = (Return r3, hp3) ∧
    read_coords r2 hp2 = Some q ∧ read_coords r3 hp3 = Some q.
Proof.
  apply (warp_affine_apply_coords_composes reference_kernels
           (of_int 0) (of_int (-1)) (of_int 5) (of_int 1) (of_int 0) (of_int 7)
           (of_int 2) (of_int 0) (of_int 1) (of_int 0) (of_int 3) (of_int 0)
           (2, 2) (2, 2) (2, 2) 1 0 1 0 1 0 (of_int 0) (of_int 0) (of_int 0)
           1%positive [(of_int 50, of_int 50); (of_int 0, of_int 0)] two_points).
  exact (proj1 two_points_coords).
Defined.

Lemma geometric_apply_coords_is_affine_witness :
  ∃ r1 hp1 r2 hp2 q,
    invoke reference_kernels (FlipTransform 100 80 true) "apply_coords" 1%positive
      (two_points (F:=Qc)) = (Return r1, hp1) ∧
    invoke reference_kernels
      (WarpAffineTransform
         [[of_int (-1); of_int 0; of_int 80]; [of_int 0; of_int 1; of_int 0]]
         (2, 2) 1 0 (of_int 0))
      "apply_coords" 1%positive (two_points (F:=Qc)) = (Return r2, hp2) ∧
    read_coords r1 hp1 = Some q ∧ read_coords r2 hp2 = Some q.
Proof.
  apply (geometric_apply_coords_is_affine reference_kernels (FlipTransform 100 80 true)
           _ (2, 2) 1 0 (of_int 0) 1%positive [(of_int 50, of_int 50); (of_int 0, of_int 0)] two_points).
  - reflexivity.
  - exact I.
  - exact two_points_coords.
Defined.

Lemma flip_apply_image_reverses_an_axis_witness :
  ∃ ret v,
    invoke reference_kernels (FlipTransform 2 2 true) "apply_image" 1%positive
      (small_image (F:=float)) =
      (Return ret, Heap (<[ret:=PyArray v]> (h_objs small_image)) (h_bufs small_image)) ∧
    block_offset v 0 0 = Some 1 ∧ block_offset v 1 1 = Some 2.
Proof.
  destruct (flip_apply_image_reverses_an_axis reference_kernels 2 2 true 1%positive
              (NdArray 1%positive 0 [2%nat; 2%nat; 1%nat] [2; 1; 1])
              2 2 [1%nat] small_image)
    as (ret & v & Hrun & _ & _ & _ & Hpix);
    [split; reflexivity | reflexivity |].
  exists ret, v. split; [exact Hrun|]. split.
  - rewrite (Hpix 0%nat 0%nat) by lia. reflexivity.
  - rewrite (Hpix 1%nat 1%nat) by lia. reflexivity.
Defined.

Lemma flip_apply_image_twice_witness :
  ∃ ret hp1,
    (r ← invoke reference_kernels (FlipTransform 2 2 false) "apply_image" 1%positive;
     invoke reference_kernels (FlipTransform 2 2 false) "apply_image" r)
      (small_image (F:=float)) = (Return ret, hp1) ∧
    h_objs hp1 !! ret =
      Some (PyArray (NdArray 1%positive 0 [2%nat; 2%nat; 1%nat] [2; 1; 1])) ∧
    h_objs (small_image (F:=float)) !! ret = None ∧
    h_bufs hp1 = h_bufs (small_image (F:=float)).
Proof.
  apply (flip_apply_image_twice reference_kernels 2 2 false 1%positive
           (NdArray 1%positive 0 [2%nat; 2%nat; 1%nat] [2; 1; 1])
           2 2 [1%nat] small_image).
  - split; reflexivity.
  - reflexivity.
Defined.

Lemma crop_apply_image_selects_region_witness :
  ∃ ret v hp1,
    invoke reference_kernels (CropTransform 1 0 1 2) "apply_image" 1%positive
      (small_image (F:=float)) = (Return ret, hp1) ∧
    h_objs hp1 !! ret = Some (PyArray v) ∧
    view_positions v `sublist_of` [0; 1; 2; 3] ∧
    block_offset v 0 1 = Some 3.
Proof.
  destruct (crop_apply_image_selects_region reference_kernels 1 0 1 2 1%positive
              (NdArray 1%positive 0 [2%nat; 2%nat; 1%nat] [2; 1; 1])
              2 2 [1%nat] small_image)
    as (ret & v & hp1 & Hrun & Hret & Hsub & _ & Hpix);
    [split; reflexivity | reflexivity |].
  exists ret, v, hp1. split; [exact Hrun|]. split; [exact Hret|].
  split; [exact Hsub|].
  rewrite Hpix by (simpl; lia). reflexivity.
Defined.

Lemma allocating_calls_keep_the_heap_witness :
  let run :=
    invoke reference_kernels
      (TransformList [ResizeTransform 2 2 4 4 1; FlipTransform 4 4 true;
                      TransposeTransform; CropTransform 1 1 2 2])
      "apply_image" 1%positive (small_image (F:=float)) in
  h_objs (small_image (F:=float)) ⊆ h_objs run.2 ∧
  h_bufs (small_image (F:=float)) ⊆ h_bufs run.2 ∧
  ∀ a vs, read_view a (small_image (F:=float)) = (Return vs, small_image) →
    read_view a run.2 = (Return vs, run.2).
Proof.
  intros run.
  apply (allocating_calls_keep_the_heap reference_kernels
           (TransformList [ResizeTransform 2 2 4 4 1; FlipTransform 4 4 true;
                           TransposeTransform; CropTransform 1 1 2 2])
           "apply_image" 1%positive small_image run.2 run.1).
  - reflexivity.
  - apply surjective_pairing.
Defined.


Lemma composite_writes_through_transposed_view_witness :
  ∃ ret hp1,
    invoke reference_kernels
      (TransformList [TransposeTransform; CropTransform 10 20 30 40])
      "apply_coords" 1%positive (two_points (F:=Qc)) = (Return ret, hp1) ∧
    ret ≠ 1%positive ∧
    read_coords ret hp1 =
      Some ((λ pt, (f_sub pt.2 (of_int 20), f_sub pt.1 (of_int 10))) <$>
            [(of_int 50, of_int 50); (of_int 0, of_int 0)]) ∧
    read_coords 1%positive hp1 =
      Some ((λ pt, (f_sub pt.1 (of_int 10), f_sub pt.2 (of_int 20))) <$>
            [(of_int 50, of_int 50); (of_int 0, of_int 0)]).
Proof.
  exact (composite_writes_through_transposed_view reference_kernels 10 20 30 40
           1%positive [(of_int 50, of_int 50); (of_int 0, of_int 0)] two_points
           two_points_coords).
Defined.

(** In binary64: the point (25, 15), transposed and then cropped at
    (y0, x0) = (10, 20), is returned as (-5, 15), and the array passed in
    holds (15, -5). *)
Example transposed_crop_example :
  let run := invoke reference_kernels
               (TransformList [TransposeTransform; CropTransform 10 20 30 40])
               "apply_coords" 1%positive (one_point (F:=float) 25 15) in
  run.1 = Return 2%positive ∧
  read_coords 2%positive run.2 = Some [(-5, 15)]%float ∧
  read_coords 1%positive run.2 = Some [(15, -5)]%float.
Proof. repeat split; vm_compute; reflexivity. Qed.

(** A Resize transform declared with a height of 0 leaves the x of the
    points scaled when it raises. *)
Example resize_zero_height_example :
  let run := invoke reference_kernels (ResizeTransform 0 100 50 50 1) "apply_coords"
               1%positive (one_point (F:=float) 10 20) in
  run.1 = Raise ZeroDivisionError ∧
  read_coords 1%positive run.2 = Some [(5, 20)]%float.
Proof. split; vm_compute; reflexivity. Qed.
